(** * codeDuplicationParser: syntax-tree wrappers, patterns and the analyzer

    A shallow embedding of
      - [code_duplication/src/common/TreeNode.py]    (module [TreeNode]),
      - [code_duplication/src/common/PatternNode.py] (modules [PatternNode]
        and [PatternHeap]),
      - [engine/errors/user_input.py] and [web/analyzer.py] (module
        [Analyzer]),
    together with the properties the specification states about them. *)

From Equations Require Import Equations.
From stdpp Require Import gmap strings list pretty.

Set Warnings "-register-all,-clear-no-such-hyp".
Set Default Proof Using "Type".

(** ** Two facts about list comprehensions with a condition *)

Lemma filter_all {A} (P : A → Prop) `{∀ x, Decision (P x)} (l : list A) :
  (∀ x, x ∈ l → P x) → filter P l = l.
Proof.
  induction l as [|a l IH]; intros Hl; [done|].
  rewrite filter_cons_True by (apply Hl; left).
  f_equal. apply IH. intros x Hx. apply Hl. by right.
Qed.

Lemma filter_none {A} (P : A → Prop) `{∀ x, Decision (P x)} (l : list A) :
  (∀ x, x ∈ l → ¬ P x) → filter P l = [].
Proof.
  induction l as [|a l IH]; intros Hl; [done|].
  rewrite filter_cons_False by (apply Hl; left).
  apply IH. intros x Hx. apply Hl. by right.
Qed.

(** ** Python's [ast] nodes, as far as [TreeNode] looks at them *)

Module Ast.

(** An [ast.AST] object.  [ast_ident] stands for the object's identity
    (what [is] and the default [__hash__]/[__eq__] compare), [ast_class]
    for [node.__class__.__name__], [ast_text] for the one non-node payload
    the code reads ([Name.id]; the literal of a constant), and [ast_fields]
    for [ast.iter_child_nodes(node)], in field order. *)
Inductive AST : Type := mkAST {
  ast_ident : nat;
  ast_class : string;
  ast_text : option string;
  ast_fields : list AST
}.

Fixpoint ast_size (t : AST) : nat :=
  S ((fix sizes (l : list AST) : nat :=
        match l with
        | [] => 0
        | x :: r => ast_size x + sizes r
        end) (ast_fields t)).

Definition forest_size (q : list AST) : nat := foldr (λ x n, ast_size x + n) 0 q.

Lemma ast_size_unfold t : ast_size t = S (forest_size (ast_fields t)).
Proof. by destruct t. Qed.

Lemma forest_size_app q1 q2 : forest_size (q1 ++ q2) = forest_size q1 + forest_size q2.
Proof. induction q1 as [|a q1 IH]; simpl; [done | rewrite IH; lia]. Qed.

(** [ast.walk]: a deque seeded with the node; pop on the left, push the
    popped node's children on the right, yield the popped node. *)
Equations? walk_queue (todo : list AST) : list AST by wf (forest_size todo) lt :=
  walk_queue [] := [];
  walk_queue (node :: todo) := node :: walk_queue (todo ++ ast_fields node).
Proof. rewrite forest_size_app; simpl; rewrite (ast_size_unfold node); lia. Qed.

Definition walk (node : AST) : list AST := walk_queue [node].

(** [x is y] on AST objects. *)
Definition is_ (x y : AST) : bool := bool_decide (ast_ident x = ast_ident y).

(** [isinstance(x, Name)]. *)
Definition isinstance_Name (x : AST) : bool := String.eqb (ast_class x) "Name".

(** The nodes of a subtree in preorder: the same nodes as [walk], listed
    by structural recursion. *)
Fixpoint descend (t : AST) : list AST :=
  t :: (fix descends (l : list AST) : list AST :=
          match l with
          | [] => []
          | x :: r => descend x ++ descends r
          end) (ast_fields t).

(** The nodes strictly below [t]. *)
Definition below (t : AST) : list AST := ast_fields t ≫= descend.

(** A parse tree is well formed when it is a tree of distinct objects: no
    object is reached twice by [walk]. *)
Definition well_formed (t : AST) : Prop := NoDup (ast_ident <$> walk t).

(** *** Sizes: what makes the wrapper's recursion terminate *)

Lemma ast_size_field t x : x ∈ ast_fields t → ast_size x < ast_size t.
Proof.
  rewrite (ast_size_unfold t). generalize (ast_fields t) as f.
  induction f as [|a f IH]; simpl; intros Hx.
  - by apply not_elem_of_nil in Hx.
  - apply elem_of_cons in Hx as [->|Hx]; [lia | specialize (IH Hx); lia].
Qed.

Lemma walk_queue_size q x :
  x ∈ walk_queue q → ∃ r, r ∈ q ∧ (x = r ∨ ast_size x < ast_size r).
Proof.
  funelim (walk_queue q); simp walk_queue; intros Hx.
  - by apply not_elem_of_nil in Hx.
  - apply elem_of_cons in Hx as [->|Hx].
    + exists node. split; [apply list_elem_of_here | by left].
    + destruct (H _ Hx) as (r & Hr & Hsz).
      apply elem_of_app in Hr as [Hr|Hr].
      * exists r. split; [by apply list_elem_of_further | done].
      * exists node. split; [apply list_elem_of_here | right].
        pose proof (ast_size_field _ _ Hr). destruct Hsz as [->|?]; lia.
Qed.

Lemma walk_size node x : x ∈ walk node → x = node ∨ ast_size x < ast_size node.
Proof.
  intros Hx. apply walk_queue_size in Hx as (r & Hr & Hsz).
  by apply list_elem_of_singleton in Hr as ->.
Qed.

(** *** [walk] lists exactly the nodes of the subtree *)

Lemma ast_ind_fields (P : AST → Prop) :
  (∀ t, (∀ x, x ∈ ast_fields t → P x) → P t) → ∀ t, P t.
Proof.
  intros step t.
  remember (ast_size t) as n eqn:Hn. revert t Hn.
  induction (lt_wf n) as [n _ IH]. intros t ->.
  apply step. intros x Hx. eapply IH; [by apply ast_size_field | done].
Qed.

Lemma descend_unfold t : descend t = t :: below t.
Proof. by destruct t. Qed.

Lemma elem_of_descend t x : x ∈ descend t ↔ x = t ∨ x ∈ below t.
Proof. by rewrite descend_unfold, elem_of_cons. Qed.

Lemma elem_of_below t x : x ∈ below t ↔ ∃ k, x ∈ descend k ∧ k ∈ ast_fields t.
Proof. unfold below. apply list_elem_of_bind. Qed.

Lemma descend_trans t c x : c ∈ descend t → x ∈ descend c → x ∈ descend t.
Proof.
  revert c x. induction t as [t IH] using ast_ind_fields. intros c x Hc Hx.
  apply elem_of_descend in Hc as [->|Hc]; [done|].
  apply elem_of_below in Hc as (k & Hc & Hk).
  apply elem_of_descend. right. apply elem_of_below. exists k. eauto.
Qed.

Lemma below_trans t c x : c ∈ descend t → x ∈ below c → x ∈ below t.
Proof.
  intros Hc Hx. apply elem_of_descend in Hc as [->|Hc]; [done|].
  apply elem_of_below in Hc as (k & Hc & Hk).
  apply elem_of_below. exists k. split; [|done].
  eapply descend_trans; [done|]. apply elem_of_descend. by right.
Qed.

Lemma walk_queue_descend q : walk_queue q ≡ₚ q ≫= descend.
Proof.
  funelim (walk_queue q); simp walk_queue; [done|].
  rewrite H, bind_app, bind_cons, descend_unfold. simpl. f_equiv.
  fold (below node). by rewrite (comm (++)).
Qed.

Lemma walk_descend t : walk t ≡ₚ descend t.
Proof. unfold walk. rewrite walk_queue_descend. simpl. by rewrite app_nil_r. Qed.

(** Breadth first: the queue comes out first, in order, then the next level. *)
Lemma walk_queue_levels q r :
  walk_queue (q ++ r) = q ++ walk_queue (r ++ (q ≫= ast_fields)).
Proof.
  revert r. induction q as [|a q IH]; intros r; simpl.
  - by rewrite app_nil_r.
  - simp walk_queue. f_equal.
    by rewrite <-(assoc (++)), IH, <-(assoc (++)).
Qed.

Lemma walk_unfold t :
  walk t = t :: ast_fields t ++ walk_queue (ast_fields t ≫= ast_fields).
Proof.
  unfold walk. simp walk_queue. simpl. f_equal.
  by rewrite <-(app_nil_r (ast_fields t)) at 1; rewrite walk_queue_levels.
Qed.

End Ast.

Import Ast.

(** ** Sample parse trees *)

Module Sample.

(** [x + 1], as [ast.parse] of Python 3.7 gives it:
    [BinOp(left=Name(id='x', ctx=Load()), op=Add(), right=Num(n=1))]. *)
Definition load_ctx : AST := mkAST 2 "Load" None [].
Definition name_x : AST := mkAST 1 "Name" (Some "x") [load_ctx].
Definition add_op : AST := mkAST 3 "Add" None [].
Definition num_1 : AST := mkAST 4 "Num" (Some "1") [].
Definition binop : AST := mkAST 0 "BinOp" None [name_x; add_op; num_1].

(** [x.y], with the one [Load] object CPython's parser hands out for every
    load context: [Attribute(value=Name(id='x', ctx=Load()), attr='y',
    ctx=Load())], both [ctx] fields holding the same object. *)
Definition attribute : AST := mkAST 5 "Attribute" (Some "y") [name_x; load_ctx].


End Sample.

(** ** [TreeNode.py]: the syntax node wrapper *)

Module TreeNode.

(** The attributes [__init__] sets.  [grandchild_nodes] is a local of the
    constructor and is not kept. *)
Inductive TreeNode : Type := mkTreeNode {
  node : AST;
  value : string;
  all_nodes : list AST;
  child_nodes : list AST;
  direct_children : list TreeNode;
  labels : gset string
}.

(** A list comprehension whose body may use that the element comes from
    the list: what lets the constructor call itself on each kept child. *)
Fixpoint comprehension {A B : Type} (l : list A) : (∀ x, x ∈ l → B) → list B :=
  match l with
  | [] => λ _, []
  | x :: r => λ f,
      f x (list_elem_of_here x r) ::
      comprehension r (λ y Hy, f y (list_elem_of_further y x r Hy))
  end.

Lemma comprehension_fmap {A B : Type} (f : A → B) (l : list A) :
  comprehension l (λ x _, f x) = f <$> l.
Proof. induction l as [|a l IH]; simpl; [done | by rewrite IH]. Qed.

Lemma comprehension_ext {A B : Type} (l : list A) (f g : ∀ x, x ∈ l → B) :
  (∀ x H, f x H = g x H) → comprehension l f = comprehension l g.
Proof.
  induction l as [|a l IH]; simpl; intros Hfg; [done|].
  rewrite Hfg. f_equal. apply IH. intros; apply Hfg.
Qed.

(** [self.child_nodes = [x for x in self.all_nodes if x is not self.node]] *)
Definition child_nodes_of (node : AST) (all_nodes : list AST) : list AST :=
  filter (λ x, is_ x node = false) all_nodes.

(** The loop filling [grandchild_nodes], a set of objects (hashed and
    compared by identity):
      [for child_node in self.child_nodes:
           grandchild_nodes.update([x for x in walk(child_node) if x is not child_node])] *)
Definition grandchild_nodes_of (child_nodes : list AST) : gset nat :=
  foldl (λ (grandchild_nodes : gset nat) child_node,
           grandchild_nodes ∪
           list_to_set (ast_ident <$> filter (λ x, is_ x child_node = false) (walk child_node)))
        ∅ child_nodes.

(** The nodes that become [direct_children]:
      [x for x in self.child_nodes if x not in grandchild_nodes] *)
Definition kept_children (node : AST) : list AST :=
  let child_nodes := child_nodes_of node (walk node) in
  let grandchild_nodes := grandchild_nodes_of child_nodes in
  filter (λ x, ast_ident x ∉ grandchild_nodes) child_nodes.

(** [set([x.id for x in self.all_nodes if isinstance(x, Name)])] *)
Definition labels_of (all_nodes : list AST) : gset string :=
  list_to_set (omap (λ x, if isinstance_Name x then ast_text x else None) all_nodes).

Lemma kept_children_size node x : x ∈ kept_children node → ast_size x < ast_size node.
Proof.
  unfold kept_children, child_nodes_of. intros Hx.
  apply list_elem_of_filter in Hx as [_ Hx].
  apply list_elem_of_filter in Hx as [Hne Hx].
  apply walk_size in Hx as [->|Hx]; [|done].
  unfold is_ in Hne. by rewrite bool_decide_eq_false in Hne.
Qed.

(** [TreeNode.__init__] *)
Equations TreeNode_init (node : AST) : TreeNode by wf (ast_size node) lt :=
  TreeNode_init node :=
    {| node := node;
       value := ast_class node;
       all_nodes := walk node;
       child_nodes := child_nodes_of node (walk node);
       direct_children :=
         comprehension (kept_children node)
           (λ x Hx, TreeNode_init x);
       labels := labels_of (walk node) |}.
Next Obligation. intros node _ x Hx. by apply kept_children_size. Qed.

Lemma TreeNode_init_eq nd :
  TreeNode_init nd =
  {| node := nd;
     value := ast_class nd;
     all_nodes := walk nd;
     child_nodes := child_nodes_of nd (walk nd);
     direct_children := TreeNode_init <$> kept_children nd;
     labels := labels_of (walk nd) |}.
Proof. simp TreeNode_init. by rewrite comprehension_fmap. Qed.

(** *** The kept children of a well-formed tree are its fields *)

Lemma is_false x y : is_ x y = false ↔ ast_ident x ≠ ast_ident y.
Proof. unfold is_. apply bool_decide_eq_false. Qed.

Lemma elem_of_grandchild_nodes_of cs i :
  i ∈ grandchild_nodes_of cs ↔
  ∃ c x, c ∈ cs ∧ x ∈ walk c ∧ is_ x c = false ∧ ast_ident x = i.
Proof.
  unfold grandchild_nodes_of.
  assert (∀ acc : gset nat,
    i ∈ foldl (λ (g : gset nat) c,
                 g ∪ list_to_set (ast_ident <$> filter (λ x, is_ x c = false) (walk c)))
              acc cs ↔
    i ∈ acc ∨ ∃ c x, c ∈ cs ∧ x ∈ walk c ∧ is_ x c = false ∧ ast_ident x = i) as Hgen.
  { induction cs as [|c cs IH]; intros acc; simpl.
    - split; [by left | intros [?|(c & x & Hc & _)]; [done|]].
      by apply not_elem_of_nil in Hc.
    - rewrite IH, elem_of_union, elem_of_list_to_set, list_elem_of_fmap. split.
      + intros [[?|(x & -> & Hx)]|(c' & x & Hc' & Hx)]; [by left | |].
        * apply list_elem_of_filter in Hx as [Hne Hx].
          right. exists c, x. split; [left | done].
        * right. exists c', x. split; [by right | done].
      + intros [?|(c' & x & Hc' & Hx & Hne & <-)]; [by left; left|].
        apply elem_of_cons in Hc' as [->|Hc'].
        * left; right. exists x. split; [done|]. by apply list_elem_of_filter.
        * right. exists c', x. done. }
  rewrite Hgen. split; [intros [?|?]; [set_solver | done] | by right].
Qed.

Lemma field_ident_not_below ks k k' x :
  NoDup (ast_ident <$> (ks ≫= descend)) →
  k ∈ ks → k' ∈ ks → x ∈ below k' → ast_ident x ≠ ast_ident k.
Proof.
  induction ks as [|a ks IH]; intros Hnd Hk Hk' Hx.
  { by apply not_elem_of_nil in Hk. }
  rewrite bind_cons, fmap_app in Hnd.
  apply NoDup_app in Hnd as (Ha & Hdisj & Hks).
  assert (∀ y c, c ∈ ks → y ∈ descend c → ast_ident y ∈ ast_ident <$> (ks ≫= descend)) as Hin.
  { intros y c Hc Hy. apply list_elem_of_fmap_2, list_elem_of_bind. eauto. }
  assert (∀ y, y ∈ descend a → ast_ident y ∈ ast_ident <$> descend a) as Hina.
  { intros y Hy. by apply list_elem_of_fmap_2. }
  assert (∀ y c, y ∈ below c → y ∈ descend c) as Hbelow.
  { intros y c Hy. apply elem_of_descend. by right. }
  assert (∀ c, c ∈ descend c) as Hself.
  { intros c. apply elem_of_descend. by left. }
  apply elem_of_cons in Hk as [->|Hk], Hk' as [->|Hk'].
  - rewrite descend_unfold, fmap_cons in Ha. apply NoDup_cons_1_1 in Ha.
    intros Heq. apply Ha. rewrite <-Heq. by apply list_elem_of_fmap_2.
  - intros Heq. apply (Hdisj (ast_ident a)); [by apply Hina|].
    rewrite <-Heq. eapply Hin; eauto.
  - intros Heq. apply (Hdisj (ast_ident x)); [by apply Hina, Hbelow|].
    rewrite Heq. eapply Hin; eauto.
  - by apply IH.
Qed.

Lemma field_descend_NoDup ks k :
  NoDup (ast_ident <$> (ks ≫= descend)) → k ∈ ks → NoDup (ast_ident <$> descend k).
Proof.
  induction ks as [|a ks IH]; intros Hnd Hk.
  { by apply not_elem_of_nil in Hk. }
  rewrite bind_cons, fmap_app in Hnd.
  apply NoDup_app in Hnd as (Ha & _ & Hks).
  apply elem_of_cons in Hk as [->|Hk]; [done | by apply IH].
Qed.

Lemma well_formed_descend t :
  well_formed t ↔ NoDup (ast_ident <$> descend t).
Proof. unfold well_formed. by rewrite walk_descend. Qed.

Lemma well_formed_field t k : well_formed t → k ∈ ast_fields t → well_formed k.
Proof.
  rewrite !well_formed_descend, (descend_unfold t), fmap_cons.
  intros Hnd%NoDup_cons_1_2 Hk. by eapply field_descend_NoDup.
Qed.

Lemma child_nodes_well_formed t :
  well_formed t →
  child_nodes_of t (walk t) =
  ast_fields t ++ walk_queue (ast_fields t ≫= ast_fields).
Proof.
  intros Hwf. unfold child_nodes_of. rewrite walk_unfold.
  rewrite filter_cons_False by (rewrite is_false; naive_solver).
  apply filter_all. intros x Hx. apply is_false.
  unfold well_formed in Hwf. rewrite walk_unfold, fmap_cons in Hwf.
  apply NoDup_cons_1_1 in Hwf. intros Heq. apply Hwf. rewrite <-Heq.
  by apply list_elem_of_fmap_2.
Qed.

Lemma kept_children_fields t : well_formed t → kept_children t = ast_fields t.
Proof.
  intros Hwf. unfold kept_children. cbv zeta.
  rewrite child_nodes_well_formed by done.
  set (cs := ast_fields t ++ walk_queue (ast_fields t ≫= ast_fields)).
  assert (cs ≡ₚ below t) as Hcs.
  { apply (Permutation_cons_inv (a:=t)).
    by rewrite <-descend_unfold, <-walk_descend, walk_unfold. }
  assert (NoDup (ast_ident <$> (ast_fields t ≫= descend))) as Hnd.
  { apply well_formed_descend in Hwf.
    rewrite descend_unfold, fmap_cons in Hwf. by apply NoDup_cons_1_2 in Hwf. }
  remember (grandchild_nodes_of cs) as G eqn:HG. unfold cs. rewrite filter_app.
  rewrite filter_all, filter_none; [by rewrite app_nil_r | |].
  - (* deeper nodes are grandchildren *)
    intros d Hd Hnot. apply Hnot. clear Hnot. subst G.
    rewrite walk_queue_descend in Hd.
    apply list_elem_of_bind in Hd as (g & Hd & Hg).
    apply list_elem_of_bind in Hg as (k & Hg & Hk).
    apply elem_of_grandchild_nodes_of. exists k, d.
    assert (d ∈ below k) as Hdk by (apply elem_of_below; eauto).
    split_and!; [| | |done].
    + unfold cs. apply elem_of_app. by left.
    + rewrite walk_descend. apply elem_of_descend. by right.
    + apply is_false. pose proof (field_descend_NoDup _ _ Hnd Hk) as Hk'.
      rewrite descend_unfold, fmap_cons in Hk'. apply NoDup_cons_1_1 in Hk'.
      intros Heq. apply Hk'. rewrite <-Heq. by apply list_elem_of_fmap_2.
  - (* fields are not *)
    subst G.
    intros k Hk (c & x & Hc & Hx & Hne & Heq)%elem_of_grandchild_nodes_of.
    rewrite Hcs in Hc. apply elem_of_below in Hc as (k' & Hc & Hk').
    rewrite walk_descend in Hx. apply elem_of_descend in Hx as [->|Hx].
    { apply is_false in Hne. done. }
    eapply (field_ident_not_below _ k k' x); eauto using below_trans.
Qed.

(** *** What the constructor stores *)

Lemma TreeNode_init_node nd : node (TreeNode_init nd) = nd.
Proof. by rewrite TreeNode_init_eq. Qed.

Lemma TreeNode_init_value nd : value (TreeNode_init nd) = ast_class nd.
Proof. by rewrite TreeNode_init_eq. Qed.

Lemma TreeNode_init_all_nodes nd : all_nodes (TreeNode_init nd) = walk nd.
Proof. by rewrite TreeNode_init_eq. Qed.

Lemma TreeNode_init_direct_children nd :
  direct_children (TreeNode_init nd) = TreeNode_init <$> kept_children nd.
Proof. by rewrite TreeNode_init_eq. Qed.

Lemma direct_children_all_nodes ks :
  (TreeNode_init <$> ks) ≫= all_nodes ≡ₚ ks ≫= descend.
Proof.
  induction ks as [|k ks IH]; [done|].
  rewrite fmap_cons, !bind_cons, IH.
  by rewrite TreeNode_init_all_nodes, walk_descend.
Qed.

Lemma bind_NoDup_index {A B} (f : A → list B) (ks : list A) i j k k' y :
  NoDup (ks ≫= f) →
  ks !! i = Some k → ks !! j = Some k' → y ∈ f k → y ∈ f k' → i = j.
Proof.
  revert i j. induction ks as [|a ks IH]; intros i j Hnd Hi Hj Hy Hy'; [done|].
  rewrite bind_cons in Hnd. apply NoDup_app in Hnd as (_ & Hdisj & Hks).
  destruct i as [|i], j as [|j]; simplify_eq/=; [done | | | f_equal; eauto].
  - exfalso. eapply Hdisj; [done|]. apply list_elem_of_bind.
    eauto using list_elem_of_lookup_2.
  - exfalso. eapply Hdisj; [done|]. apply list_elem_of_bind.
    eauto using list_elem_of_lookup_2.
Qed.

(** Without sharing the direct children do partition the nodes: for a
    wrapper built from a tree in which no object is reached twice, the root
    together with the [all_nodes] of the direct children is [all_nodes]
    again, as a multiset; no object occurs twice in it; and every node
    other than the root is in the [all_nodes] of exactly one direct
    child. *)
Theorem direct_children_partition (root : AST) :
  well_formed root →
  let w := TreeNode_init root in
  all_nodes w ≡ₚ node w :: (direct_children w ≫= all_nodes) ∧
  NoDup (ast_ident <$> all_nodes w) ∧
  NoDup (ast_ident <$> (node w :: (direct_children w ≫= all_nodes))) ∧
  ∀ x, x ∈ all_nodes w → is_ x (node w) = false →
    ∃ i c, direct_children w !! i = Some c ∧ x ∈ all_nodes c ∧
      ∀ j c', direct_children w !! j = Some c' → x ∈ all_nodes c' → j = i.
Proof.
  intros Hwf w.
  assert (all_nodes w ≡ₚ node w :: (direct_children w ≫= all_nodes)) as Hperm.
  { unfold w. rewrite TreeNode_init_all_nodes, TreeNode_init_node,
      TreeNode_init_direct_children, kept_children_fields by done.
    by rewrite direct_children_all_nodes, walk_descend, descend_unfold. }
  assert (NoDup (ast_ident <$> all_nodes w)) as Hnd.
  { unfold w. by rewrite TreeNode_init_all_nodes. }
  split_and!; [done | done | by rewrite <-Hperm |].
  intros x Hx Hne. rewrite Hperm in Hx.
  apply elem_of_cons in Hx as [->|Hx].
  { apply is_false in Hne. done. }
  apply list_elem_of_bind in Hx as (c & Hx & Hc).
  apply list_elem_of_lookup_1 in Hc as [i Hi].
  exists i, c. split_and!; [done | done |].
  intros j c' Hj Hx'.
  rewrite Hperm, fmap_cons in Hnd. apply NoDup_cons_1_2, NoDup_fmap_1 in Hnd.
  by eapply (bind_NoDup_index all_nodes (direct_children w) j i).
Qed.


(** The partition, on [x + 1]. *)
Lemma direct_children_partition_binop :
  well_formed Sample.binop ∧
  all_nodes (TreeNode_init Sample.binop) ≡ₚ
    Sample.binop :: (direct_children (TreeNode_init Sample.binop) ≫= all_nodes).
Proof.
  assert (well_formed Sample.binop) as Hwf.
  { unfold well_formed. apply (bool_decide_unpack _). vm_compute. exact I. }
  split; [exact Hwf|].
  pose proof (direct_children_partition Sample.binop Hwf) as [Hperm _].
  by rewrite TreeNode_init_node in Hperm.
Defined.


(** C3.  The stored [value] is the grammar-category name of the node,
    for every node; so also at a leaf: the wrapper of the literal [1]
    stores ["Num"], not the literal's text. *)
Theorem leaf_value_is_class_name :
  (∀ nd, value (TreeNode_init nd) = ast_class nd) ∧
  ast_fields Sample.num_1 = [] ∧
  ast_text Sample.num_1 = Some "1" ∧
  direct_children (TreeNode_init Sample.num_1) = [] ∧
  value (TreeNode_init Sample.num_1) = "Num".
Proof.
  split_and!; [apply TreeNode_init_value | done | done | |];
    by rewrite TreeNode_init_eq.
Qed.

(** Sharing matters.  In [x.y] the one [Load] object is a field of the
    [Attribute] and of the [Name] below it; the constructor takes it for a
    grandchild and drops it from [direct_children], so the direct children
    no longer account for all of [all_nodes]. *)
Remark shared_object_is_dropped :
  let w := TreeNode_init Sample.attribute in
  ¬ well_formed Sample.attribute ∧
  ast_fields Sample.attribute = [Sample.name_x; Sample.load_ctx] ∧
  node <$> direct_children w = [Sample.name_x] ∧
  ¬ all_nodes w ≡ₚ node w :: (direct_children w ≫= all_nodes).
Proof.
  cbv zeta. rewrite TreeNode_init_eq. simpl. split_and!.
  - unfold well_formed. intros Hnd.
    by apply (bool_decide_pack _) in Hnd; vm_compute in Hnd.
  - done.
  - assert (kept_children Sample.attribute = [Sample.name_x]) as -> by by vm_compute.
    simpl. by rewrite TreeNode_init_node.
  - assert (kept_children Sample.attribute = [Sample.name_x]) as -> by by vm_compute.
    simpl. rewrite TreeNode_init_all_nodes. intros Hperm%Permutation_length.
    by vm_compute in Hperm.
Qed.

(** *** The wrapper tree, its labels and its printed form *)

(** [TreeNode.__str__] and [__repr__]:
    [f'{self.value}[{len(self.direct_children)} children; {len(self.labels)} labels]'] *)
Definition __str__ (self : TreeNode) : string :=
  value self +:+ "[" +:+ pretty (length (direct_children self)) +:+ " children; "
  +:+ pretty (size (labels self)) +:+ " labels]".

Definition __repr__ (self : TreeNode) : string := __str__ self.

(** The wrapper one would build by recursion on the fields of the node. *)
Fixpoint mirror (t : AST) : TreeNode :=
  {| node := t;
     value := ast_class t;
     all_nodes := walk t;
     child_nodes := child_nodes_of t (walk t);
     direct_children := mirror <$> ast_fields t;
     labels := labels_of (walk t) |}.

(** A wrapper and all the wrappers below it, parents first. *)
Fixpoint wrappers (w : TreeNode) : list TreeNode :=
  w :: (direct_children w ≫= wrappers).

(** The name a node contributes to [labels]. *)
Definition own_label (t : AST) : gset string :=
  if isinstance_Name t then from_option singleton ∅ (ast_text t) else ∅.

Lemma mirror_unfold t :
  mirror t =
  {| node := t; value := ast_class t; all_nodes := walk t;
     child_nodes := child_nodes_of t (walk t);
     direct_children := mirror <$> ast_fields t;
     labels := labels_of (walk t) |}.
Proof. by destruct t. Qed.

Lemma wrappers_unfold w : wrappers w = w :: (direct_children w ≫= wrappers).
Proof. by destruct w. Qed.

Lemma TreeNode_init_mirror t : well_formed t → TreeNode_init t = mirror t.
Proof.
  induction t as [t IH] using ast_ind_fields. intros Hwf.
  rewrite TreeNode_init_eq, mirror_unfold, kept_children_fields by done.
  f_equal. apply list_fmap_ext. intros i k Hk.
  apply list_elem_of_lookup_2 in Hk. apply IH; [done | by eapply well_formed_field].
Qed.

Lemma wrappers_mirror t : node <$> wrappers (mirror t) = descend t.
Proof.
  induction t as [t IH] using ast_ind_fields.
  rewrite wrappers_unfold, mirror_unfold, descend_unfold, fmap_cons. simpl. f_equal.
  unfold below. generalize (ast_fields t) IH. clear IH.
  induction l as [|k ks IHks]; intros IH; [done|].
  rewrite fmap_cons, !bind_cons, fmap_app, IH by left.
  f_equal. apply IHks. intros x Hx. apply IH. by right.
Qed.

(** X15.  On a well-formed parse tree the constructor is the recursion on
    the fields of the node: the wrapper of a node has one direct child per
    child node, in field order, each the wrapper of that child.  So every
    node of the tree is wrapped exactly once, parents before children, and
    what [__str__] prints is the class name, the number of child nodes and
    the number of labels. *)
Theorem wrapper_mirrors_tree (t : AST) :
  well_formed t →
  TreeNode_init t = mirror t ∧
  node <$> direct_children (TreeNode_init t) = ast_fields t ∧
  node <$> wrappers (TreeNode_init t) = descend t ∧
  __repr__ (TreeNode_init t) =
    ast_class t +:+ "[" +:+ pretty (length (ast_fields t)) +:+ " children; "
    +:+ pretty (size (labels (TreeNode_init t))) +:+ " labels]".
Proof.
  intros Hwf. split_and!.
  - by apply TreeNode_init_mirror.
  - rewrite TreeNode_init_direct_children, kept_children_fields by done.
    rewrite <-list_fmap_compose. rewrite <-(list_fmap_id (ast_fields t)) at 2.
    apply list_fmap_ext. intros i k _. simpl. apply TreeNode_init_node.
  - rewrite TreeNode_init_mirror by done. apply wrappers_mirror.
  - unfold __repr__, __str__.
    rewrite TreeNode_init_value, TreeNode_init_direct_children, kept_children_fields by done.
    by rewrite length_fmap.
Qed.

Lemma wrapper_mirrors_tree_binop :
  well_formed Sample.binop ∧
  node <$> wrappers (TreeNode_init Sample.binop)
  = [Sample.binop; Sample.name_x; Sample.load_ctx; Sample.add_op; Sample.num_1] ∧
  __repr__ (TreeNode_init Sample.binop) = "BinOp[3 children; 1 labels]".
Proof.
  assert (well_formed Sample.binop) as Hwf.
  { unfold well_formed. apply (bool_decide_unpack _). vm_compute. exact I. }
  destruct (wrapper_mirrors_tree Sample.binop Hwf) as (_ & _ & Hwrap & Hrepr).
  split_and!; [done | by rewrite Hwrap |].
  rewrite Hrepr, TreeNode_init_eq. by vm_compute.
Defined.

Lemma elem_of_labels_of l x :
  x ∈ labels_of l ↔ ∃ n, n ∈ l ∧ x ∈ own_label n.
Proof.
  unfold labels_of, own_label. rewrite elem_of_list_to_set, list_elem_of_omap.
  split; intros (n & Hn & Hx); exists n; (split; [done|]).
  - destruct (isinstance_Name n); [|done]. rewrite Hx. simpl. by apply elem_of_singleton.
  - destruct (isinstance_Name n); [|by apply not_elem_of_empty in Hx].
    destruct (ast_text n) as [y|]; simpl in Hx.
    + by apply elem_of_singleton in Hx as ->.
    + by apply not_elem_of_empty in Hx.
Qed.

(** X16.  The labels of a wrapper are the name of its own node, when
    that is a [Name], together with the labels of the wrappers of the
    node's fields, shared objects or not; on a well-formed tree these are
    the labels of its direct children, whose labels are thus among its
    own. *)
Theorem labels_of_children (t : AST) :
  labels (TreeNode_init t) =
    own_label t ∪ ⋃ (labels ∘ TreeNode_init <$> ast_fields t) ∧
  (well_formed t →
   labels (TreeNode_init t) =
     own_label t ∪ ⋃ (labels <$> direct_children (TreeNode_init t)) ∧
   ∀ c, c ∈ direct_children (TreeNode_init t) → labels c ⊆ labels (TreeNode_init t)).
Proof.
  assert (labels (TreeNode_init t) =
          own_label t ∪ ⋃ (labels ∘ TreeNode_init <$> ast_fields t)) as Hfields.
  { apply set_eq. intros x.
    rewrite TreeNode_init_eq. simpl.
    rewrite elem_of_labels_of, elem_of_union, elem_of_union_list. split.
    - intros (n & Hn & Hx). rewrite walk_descend in Hn.
      apply elem_of_descend in Hn as [->|Hn]; [by left|]. right.
      apply elem_of_below in Hn as (k & Hn & Hk).
      exists (labels (TreeNode_init k)). split.
      + apply list_elem_of_fmap. by exists k.
      + rewrite TreeNode_init_eq. simpl. apply elem_of_labels_of. exists n.
        by rewrite walk_descend.
    - intros [Hx|(X & HX & Hx)].
      + exists t. split; [|done]. rewrite walk_descend. apply elem_of_descend. by left.
      + apply list_elem_of_fmap in HX as (k & -> & Hk). simpl in Hx.
        rewrite TreeNode_init_eq in Hx. simpl in Hx.
        apply elem_of_labels_of in Hx as (n & Hn & Hx). exists n. split; [|done].
        rewrite walk_descend in *. apply elem_of_descend. right.
        apply elem_of_below. by exists k. }
  split; [done|]. intros Hwf.
  assert (labels <$> direct_children (TreeNode_init t)
          = labels ∘ TreeNode_init <$> ast_fields t) as Heq.
  { rewrite TreeNode_init_direct_children, kept_children_fields by done.
    by rewrite <-list_fmap_compose. }
  split; [by rewrite Heq|].
  intros c Hc x Hx. rewrite Hfields, <-Heq.
  apply elem_of_union. right. apply elem_of_union_list.
  exists (labels c). split; [by apply list_elem_of_fmap_2 | done].
Qed.

Lemma labels_of_children_binop :
  well_formed Sample.binop ∧
  labels (TreeNode_init Sample.binop) =
    own_label Sample.binop ∪ ⋃ (labels <$> direct_children (TreeNode_init Sample.binop)).
Proof.
  assert (well_formed Sample.binop) as Hwf.
  { unfold well_formed. apply (bool_decide_unpack _). vm_compute. exact I. }
  split; [done|]. by apply (proj2 (labels_of_children Sample.binop) Hwf).
Defined.

End TreeNode.

(** ** [PatternNode.py]: patterns as values *)

Module PatternNode.

(** The attributes of a [PatternNode], read as a finite tree (a pattern
    that is its own descendant has no [__eq__]: the comparison would not
    return). *)
Inductive PatternNode : Type := mkPatternNode {
  nodes : list TreeNode.TreeNode;
  weight : Z;
  value : string;
  children : list PatternNode
}.

(** What [__eq__] may be handed. *)
Variant object : Type :=
  | ObjPattern (p : PatternNode)
  | ObjTree (t : TreeNode.TreeNode)
  | ObjNone.

(** [f"Hole(weight={weight})"] *)
Definition hole_marker (weight : Z) : string :=
  "Hole(weight=" +:+ pretty weight +:+ ")".

(** [value or f"Hole(weight={weight})"]: [None] and the empty string are
    the falsy values of an optional string. *)
Definition value_or_hole (value : option string) (weight : Z) : string :=
  match value with
  | Some v => if decide (v = "") then hole_marker weight else v
  | None => hole_marker weight
  end.

(** [PatternNode.__init__(self, node1, node2, weight, value=None)] *)
Definition PatternNode_init (node1 node2 : TreeNode.TreeNode) (weight : Z)
    (value : option string) : PatternNode :=
  {| nodes := [node1; node2];
     weight := weight;
     value := value_or_hole value weight;
     children := [] |}.

(** [self.nodes.extend(nodes)], on the value. *)
Definition add_nodes (self : PatternNode) (new : list TreeNode.TreeNode) : PatternNode :=
  {| nodes := nodes self ++ new;
     weight := weight self;
     value := value self;
     children := children self |}.

(** [self.children.extend(children)], on the value. *)
Definition add_children (self : PatternNode) (new : list PatternNode) : PatternNode :=
  {| nodes := nodes self;
     weight := weight self;
     value := value self;
     children := children self ++ new |}.

(** The loop of [__eq__], entered only when both lists have the same
    length:
      [for i, c in enumerate(other.children):
           if c != self.children[i]: return False
       return True] *)
Fixpoint pairwise {A : Type} (differ : A → A → bool) (l k : list A) : bool :=
  match l, k with
  | x :: l, y :: k => if differ x y then false else pairwise differ l k
  | _, _ => true
  end.

(** [__eq__] between two patterns.  [c != self.children[i]] is
    [c.__ne__(self.children[i])], that is [not c.__eq__(self.children[i])]:
    the child of [other] is the receiver of the nested call, so the roles
    swap at every level.  [eq_self] descends through its receiver and
    [eq_other] through its argument; they are the same function. *)
Fixpoint eq_self (self other : PatternNode) {struct self} : bool :=
  if negb (String.eqb (value other) (value self))
     || negb (length (children other) =? length (children self))
  then false
  else pairwise (λ s c, negb (eq_other c s)) (children self) (children other)
with eq_other (self other : PatternNode) {struct other} : bool :=
  if negb (String.eqb (value other) (value self))
     || negb (length (children other) =? length (children self))
  then false
  else pairwise (λ c s, negb (eq_self c s)) (children other) (children self).

(** [PatternNode.__eq__(self, other)] *)
Definition __eq__ (self : PatternNode) (other : object) : bool :=
  match other with
  | ObjPattern other => eq_self self other
  | _ => false  (* not isinstance(other, PatternNode) *)
  end.

(** [PatternNode.__ne__(self, other)] *)
Definition __ne__ (self : PatternNode) (other : object) : bool :=
  negb (__eq__ self other).

(** The skeleton of a pattern: its value and the skeletons of its
    children, nothing else. *)
Inductive Skeleton : Type := Skel (v : string) (subs : list Skeleton).

Fixpoint skeleton (p : PatternNode) : Skeleton :=
  Skel (value p) (skeleton <$> children p).

(** *** [__eq__] decides equality of skeletons *)

Fixpoint PatternNode_ind_children (P : PatternNode → Prop)
    (step : ∀ p, Forall P (children p) → P p) (p : PatternNode) : P p :=
  step p
    ((fix all (l : list PatternNode) : Forall P l :=
        match l with
        | [] => @List.Forall_nil _ P
        | c :: l => @List.Forall_cons _ P c l (PatternNode_ind_children P step c) (all l)
        end) (children p)).

Lemma eq_self_unfold self other :
  eq_self self other =
  if negb (String.eqb (value other) (value self))
     || negb (length (children other) =? length (children self))
  then false
  else pairwise (λ s c, negb (eq_other c s)) (children self) (children other).
Proof. by destruct self. Qed.

Lemma eq_other_unfold self other :
  eq_other self other =
  if negb (String.eqb (value other) (value self))
     || negb (length (children other) =? length (children self))
  then false
  else pairwise (λ c s, negb (eq_self c s)) (children other) (children self).
Proof. by destruct other. Qed.

Lemma pairwise_Forall2 {A} (differ : A → A → bool) (l k : list A) :
  length l = length k →
  pairwise differ l k = true ↔ Forall2 (λ x y, differ x y = false) l k.
Proof.
  revert k. induction l as [|x l IH]; intros [|y k] Hlen; simplify_eq/=.
  - split; [constructor | done].
  - destruct (differ x y) eqn:Hxy.
    + split; [done | intros [? _]%Forall2_cons; congruence].
    + rewrite IH, Forall2_cons by done. tauto.
Qed.

Lemma guard_true (v v' : string) (n n' : nat) :
  negb (String.eqb v v') || negb (n =? n') = false ↔ v = v' ∧ n = n'.
Proof.
  rewrite orb_false_iff, !negb_false_iff, String.eqb_eq, Nat.eqb_eq. done.
Qed.

Lemma skeleton_unfold p : skeleton p = Skel (value p) (skeleton <$> children p).
Proof. by destruct p. Qed.

Lemma skeleton_eq_iff p q :
  skeleton p = skeleton q ↔
  value p = value q ∧ skeleton <$> children p = skeleton <$> children q.
Proof. rewrite !skeleton_unfold. split; [by intros [= -> ->] | by intros [-> ->]]. Qed.

Lemma Forall2_skeleton (R : PatternNode → PatternNode → Prop) l k :
  Forall (λ x, ∀ y, R x y ↔ skeleton x = skeleton y) l →
  Forall2 R l k ↔ skeleton <$> l = skeleton <$> k.
Proof.
  revert k. induction l as [|x l IH]; intros [|y k] Hl; rewrite ?fmap_nil, ?fmap_cons.
  - by rewrite Forall2_nil.
  - split; [intros []%Forall2_nil_cons_inv | done].
  - split; [intros []%Forall2_cons_nil_inv | done].
  - apply Forall_cons in Hl as [Hx Hl].
    rewrite Forall2_cons, Hx, IH by done. split; [by intros [-> ->] | by intros [= -> ->]].
Qed.

Lemma eq_skeleton p :
  ∀ q, (eq_self p q = true ↔ skeleton p = skeleton q) ∧
       (eq_other q p = true ↔ skeleton q = skeleton p).
Proof.
  induction p as [p IH] using PatternNode_ind_children. intros q.
  rewrite eq_self_unfold, eq_other_unfold, (skeleton_eq_iff p q), (skeleton_eq_iff q p).
  split.
  - destruct (negb _ || negb _) eqn:Hguard.
    + split; [done|]. intros [Hv Hcs].
      apply not_true_iff_false in Hguard. destruct Hguard. apply guard_true.
      split; [done|]. by rewrite <-(length_fmap skeleton), <-Hcs, length_fmap.
    + apply guard_true in Hguard as [Hv Hlen].
      rewrite pairwise_Forall2 by done.
      rewrite Forall2_skeleton; [intuition congruence|].
      eapply Forall_impl; [exact IH|]. intros s IHs c. simpl.
      rewrite negb_false_iff, (proj2 (IHs c)). intuition congruence.
  - destruct (negb _ || negb _) eqn:Hguard.
    + split; [done|]. intros [Hv Hcs].
      apply not_true_iff_false in Hguard. destruct Hguard. apply guard_true.
      split; [done|]. by rewrite <-(length_fmap skeleton), <-Hcs, length_fmap.
    + apply guard_true in Hguard as [Hv Hlen].
      rewrite pairwise_Forall2 by done.
      rewrite Forall2_skeleton; [intuition congruence|].
      eapply Forall_impl; [exact IH|]. intros c IHc s. simpl.
      by rewrite negb_false_iff, (proj1 (IHc s)).
Qed.

Lemma eq_self_skeleton p q : eq_self p q = true ↔ skeleton p = skeleton q.
Proof. apply eq_skeleton. Qed.

Lemma eq_other_skeleton p q : eq_other p q = true ↔ skeleton p = skeleton q.
Proof. apply eq_skeleton. Qed.

Lemma eq_self_eq_other p q : eq_self p q = eq_other p q.
Proof.
  destruct (eq_other p q) eqn:Hpq.
  - by apply eq_self_skeleton, eq_other_skeleton.
  - apply not_true_iff_false. rewrite eq_self_skeleton, <-eq_other_skeleton. congruence.
Qed.

(** *** Hole markers *)

Lemma string_length_app (s t : string) :
  String.length (s +:+ t) = String.length s + String.length t.
Proof. induction s as [|a s IH]; simpl; [done | by rewrite IH]. Qed.

Lemma string_app_inj_r (s1 s2 t : string) : s1 +:+ t = s2 +:+ t → s1 = s2.
Proof.
  revert s2. induction s1 as [|a s1 IH]; intros [|b s2] Heq.
  - done.
  - apply (f_equal String.length) in Heq.
    rewrite !string_length_app in Heq. simpl in Heq. lia.
  - apply (f_equal String.length) in Heq.
    rewrite !string_length_app in Heq. simpl in Heq. lia.
  - simpl in Heq. injection Heq as -> Heq. f_equal. by apply IH.
Qed.

Lemma hole_marker_inj w1 w2 : hole_marker w1 = hole_marker w2 ↔ w1 = w2.
Proof.
  split; [|by intros ->]. unfold hole_marker. intros Heq.
  apply (inj (String.app _)), string_app_inj_r in Heq. by apply (inj pretty).
Qed.

Lemma hole_marker_nonempty w : hole_marker w ≠ "".
Proof. done. Qed.

(** *** The claims about equality *)

Lemma eq_children_skeleton l k :
  Forall2 (λ a b, __eq__ a (ObjPattern b) = true) l k ↔ skeleton <$> l = skeleton <$> k.
Proof.
  apply Forall2_skeleton, Forall_forall. intros a _ b. simpl. apply eq_self_skeleton.
Qed.

Lemma eq_reflexive p : __eq__ p (ObjPattern p) = true.
Proof. by apply eq_self_skeleton. Qed.

Lemma eq_symmetric p q :
  __eq__ p (ObjPattern q) = true → __eq__ q (ObjPattern p) = true.
Proof. unfold __eq__. rewrite !eq_self_skeleton. done. Qed.

Lemma eq_transitive p q r :
  __eq__ p (ObjPattern q) = true → __eq__ q (ObjPattern r) = true →
  __eq__ p (ObjPattern r) = true.
Proof. unfold __eq__. rewrite !eq_self_skeleton. congruence. Qed.

Lemma eq_self_proper p p' q q' :
  skeleton p = skeleton p' → skeleton q = skeleton q' → eq_self p q = eq_self p' q'.
Proof.
  intros Hp Hq. destruct (eq_self p' q') eqn:Hpq.
  - apply eq_self_skeleton. apply eq_self_skeleton in Hpq. congruence.
  - apply not_true_iff_false. apply not_true_iff_false in Hpq.
    rewrite eq_self_skeleton in *. congruence.
Qed.

(** C1, as the code has it.  Two patterns are equal exactly when their
    values are the same string and their children are pairwise equal, in
    order and in number; equivalently, when their skeletons coincide.  The
    [nodes] list and the [weight] field are not read: replacing them, at the
    root or anywhere below, leaves the result as it was.  The weight given
    to the constructor of a hole is another matter: it is written into the
    hole's value, so two holes are equal exactly when their weights are. *)
Theorem eq_is_skeleton_equality (p q : PatternNode) :
  (__eq__ p (ObjPattern q) = true ↔
     value p = value q ∧
     Forall2 (λ a b, __eq__ a (ObjPattern b) = true) (children p) (children q)) ∧
  (__eq__ p (ObjPattern q) = true ↔ skeleton p = skeleton q) ∧
  (∀ ns w ns' w',
     __eq__ (mkPatternNode ns w (value p) (children p))
            (ObjPattern (mkPatternNode ns' w' (value q) (children q)))
     = __eq__ p (ObjPattern q)) ∧
  (∀ n1 n2 m1 m2 w1 w2,
     __eq__ (PatternNode_init n1 n2 w1 None)
            (ObjPattern (PatternNode_init m1 m2 w2 None)) = true ↔ w1 = w2).
Proof.
  split_and!.
  - unfold __eq__ at 1. by rewrite eq_self_skeleton, skeleton_eq_iff, eq_children_skeleton.
  - apply eq_self_skeleton.
  - intros ns w ns' w'. unfold __eq__.
    apply eq_self_proper; by apply skeleton_eq_iff.
  - intros n1 n2 m1 m2 w1 w2. unfold __eq__.
    rewrite eq_self_skeleton, skeleton_eq_iff. simpl.
    rewrite hole_marker_inj. tauto.
Qed.

(** C6.  Equality of patterns is reflexive, symmetric and transitive, and
    [__ne__] is its negation, on every object. *)
Theorem eq_equivalence :
  Equivalence (λ p q, __eq__ p (ObjPattern q) = true) ∧
  ∀ p (o : object), __ne__ p o = negb (__eq__ p o).
Proof.
  split; [|done]. split.
  - intros p. apply eq_reflexive.
  - intros p q. apply eq_symmetric.
  - intros p q r. apply eq_transitive.
Qed.

(** C4.  A pattern built without a common value is a hole: its value is
    the marker [Hole(weight=w)], with [w] the decimal numeral of the weight
    given (distinct weights give distinct markers), it has no children, and
    it keeps the weight and the two nodes. *)
Theorem hole_construction (node1 node2 : TreeNode.TreeNode) (w : Z) :
  let p := PatternNode_init node1 node2 w None in
  value p = "Hole(weight=" +:+ pretty w +:+ ")" ∧
  children p = [] ∧
  weight p = w ∧
  nodes p = [node1; node2] ∧
  ∀ w', value (PatternNode_init node1 node2 w' None) = value p ↔ w' = w.
Proof.
  simpl. split_and!; try done. intros w'. apply hole_marker_inj.
Qed.

(** C1 as stated fails on holes: two holes built from the same two nodes,
    one with weight 1 and one with weight 2, differ in their weight only,
    and are not equal. *)
Lemma hole_weight_distinguishes :
  let n1 := TreeNode.TreeNode_init Sample.name_x in
  let n2 := TreeNode.TreeNode_init Sample.num_1 in
  let p := PatternNode_init n1 n2 1 None in
  let q := PatternNode_init n1 n2 2 None in
  nodes p = nodes q ∧ children p = children q ∧ weight p ≠ weight q ∧
  __eq__ p (ObjPattern q) = false ∧ __ne__ p (ObjPattern q) = true.
Proof. split_and!; done. Qed.

(** The empty string is falsy too: a pattern given the value [""] is a
    hole as well. *)
Remark empty_value_is_hole (node1 node2 : TreeNode.TreeNode) (w : Z) :
  PatternNode_init node1 node2 w (Some "") = PatternNode_init node1 node2 w None.
Proof. done. Qed.

(** *** [add_nodes] and [add_children] against equality *)

(** X10.  [add_nodes] is invisible to equality: adding member nodes to
    either side of a comparison, at the top or inside a child, leaves the
    result as it was. *)
Theorem add_nodes_keeps_equality (p q : PatternNode) (new new' : list TreeNode.TreeNode)
    (before after : list PatternNode) (c : PatternNode) :
  __eq__ (add_nodes p new) (ObjPattern (add_nodes q new')) = __eq__ p (ObjPattern q) ∧
  __eq__ (mkPatternNode (nodes p) (weight p) (value p) (before ++ add_nodes c new :: after))
         (ObjPattern q)
  = __eq__ (mkPatternNode (nodes p) (weight p) (value p) (before ++ c :: after))
           (ObjPattern q).
Proof.
  unfold __eq__. split; apply eq_self_proper; try done.
  - by apply skeleton_eq_iff.
  - by apply skeleton_eq_iff.
  - apply skeleton_eq_iff. simpl. split; [done|].
    rewrite !fmap_app, !fmap_cons. do 2 f_equal. by apply skeleton_eq_iff.
Qed.

(** X11.  [add_children] extends the skeleton: for equal patterns [p]
    and [q], the patterns with the children [cs] and [cs'] added are equal
    exactly when [cs] and [cs'] are pairwise equal, in order and in number.
    So a pattern to which a child was added is no longer equal to what it
    was. *)
Theorem add_children_equality (p q : PatternNode) (cs cs' : list PatternNode) :
  __eq__ p (ObjPattern q) = true →
  (__eq__ (add_children p cs) (ObjPattern (add_children q cs')) = true ↔
   Forall2 (λ a b, __eq__ a (ObjPattern b) = true) cs cs') ∧
  (cs ≠ [] → __eq__ (add_children p cs) (ObjPattern q) = false).
Proof.
  unfold __eq__ at 1 2 4. rewrite eq_self_skeleton, skeleton_eq_iff.
  intros [Hv Hc]. split.
  - rewrite eq_self_skeleton, skeleton_eq_iff, eq_children_skeleton. simpl.
    rewrite !fmap_app, Hc. split.
    + intros [_ Happ]. by apply (inj (app _)) in Happ.
    + by intros ->.
  - intros Hcs. apply not_true_iff_false. rewrite eq_self_skeleton, skeleton_eq_iff.
    simpl. intros [_ Happ]. apply (f_equal length) in Happ.
    rewrite fmap_app, length_app, Hc, !length_fmap in Happ.
    destruct cs; [done | simpl in Happ; lia].
Qed.

Lemma add_children_equality_sample :
  let n := TreeNode.TreeNode_init Sample.name_x in
  let p := PatternNode_init n n 3 (Some "BinOp") in
  let q := PatternNode_init n n 7 (Some "BinOp") in
  let hole := PatternNode_init n n 1 None in
  __eq__ p (ObjPattern q) = true ∧
  __eq__ (add_children p [hole]) (ObjPattern (add_children q [hole])) = true ∧
  __eq__ (add_children p [hole]) (ObjPattern q) = false.
Proof.
  cbv zeta.
  set (n := TreeNode.TreeNode_init Sample.name_x).
  assert (__eq__ (PatternNode_init n n 3 (Some "BinOp"))
                 (ObjPattern (PatternNode_init n n 7 (Some "BinOp"))) = true) as Heq by done.
  pose proof (add_children_equality _ _ [PatternNode_init n n 1 None]
                [PatternNode_init n n 1 None] Heq) as [Hiff Hne].
  split_and!; [done | | by apply Hne].
  apply Hiff. apply Forall2_cons. split; [apply eq_reflexive | apply Forall2_nil_2].
Defined.

End PatternNode.

(** ** [PatternNode.py]: patterns as objects

    [add_nodes] and [add_children] change a list in place.  Here a pattern
    is an object in a store; its [nodes] and [children] attributes hold
    references to list objects, as in Python, so that two attributes naming
    the same list would be seen. *)

Module PatternHeap.

Definition loc : Type := positive.

(** The attributes of one [PatternNode] object. *)
Record pattern : Type := mkPattern {
  nodes : loc;
  weight : Z;
  value : string;
  children : loc
}.

(** What the store holds: the two kinds of list object the class creates,
    and the patterns themselves. *)
Variant cell : Type :=
  | NodeList (l : list TreeNode.TreeNode)
  | ChildList (l : list loc)
  | Pattern (o : pattern).

Abbreviation heap := (gmap loc cell).

Definition alloc (h : heap) (c : cell) : loc * heap :=
  let l := fresh (dom h) in (l, <[l:=c]> h).

(** [PatternNode(node1, node2, weight, value)]: the two list displays
    [[node1, node2]] and [[]] each make a new list object. *)
Definition PatternNode_init (h : heap) (node1 node2 : TreeNode.TreeNode)
    (weight : Z) (value : option string) : loc * heap :=
  let '(nodes, h) := alloc h (NodeList [node1; node2]) in
  let '(children, h) := alloc h (ChildList []) in
  alloc h (Pattern {| nodes := nodes;
                      weight := weight;
                      value := PatternNode.value_or_hole value weight;
                      children := children |}).

(** [self.nodes.extend(nodes)]; [None] when [self] is no pattern of the
    store. *)
Definition add_nodes (h : heap) (self : loc) (new : list TreeNode.TreeNode) : option heap :=
  match h !! self with
  | Some (Pattern o) =>
      match h !! nodes o with
      | Some (NodeList l) => Some (<[nodes o := NodeList (l ++ new)]> h)
      | _ => None
      end
  | _ => None
  end.

(** [self.children.extend(children)] *)
Definition add_children (h : heap) (self : loc) (new : list loc) : option heap :=
  match h !! self with
  | Some (Pattern o) =>
      match h !! children o with
      | Some (ChildList l) => Some (<[children o := ChildList (l ++ new)]> h)
      | _ => None
      end
  | _ => None
  end.

(** The attributes of the pattern at [p], read through its references:
    member nodes, weight, value, children. *)
Definition fields (h : heap) (p : loc) :
    option (list TreeNode.TreeNode * Z * string * list loc) :=
  match h !! p with
  | Some (Pattern o) =>
      match h !! nodes o, h !! children o with
      | Some (NodeList ns), Some (ChildList cs) => Some (ns, weight o, value o, cs)
      | _, _ => None
      end
  | _ => None
  end.

(** The pattern at [p] as a value, children followed to depth [depth]. *)
Fixpoint reify (depth : nat) (h : heap) (p : loc) : option PatternNode.PatternNode :=
  match depth with
  | 0 => None
  | S depth =>
      '(ns, w, v, cs) ← fields h p;
      kids ← mapM (reify depth h) cs;
      Some (PatternNode.mkPatternNode ns w v kids)
  end.

(** The stores the class can produce: from the empty one, by constructing
    patterns and calling the two methods. *)
Inductive reachable : heap → Prop :=
  | reach_empty : reachable ∅
  | reach_init h node1 node2 w v :
      reachable h → reachable (PatternNode_init h node1 node2 w v).2
  | reach_add_nodes h h' p new :
      reachable h → add_nodes h p new = Some h' → reachable h'
  | reach_add_children h h' p new :
      reachable h → add_children h p new = Some h' → reachable h'.

(** Every pattern has its two lists, and no two patterns share a list. *)
Record heap_ok (h : heap) : Prop := {
  ok_nodes : ∀ p o, h !! p = Some (Pattern o) → ∃ l, h !! nodes o = Some (NodeList l);
  ok_children : ∀ p o, h !! p = Some (Pattern o) → ∃ l, h !! children o = Some (ChildList l);
  ok_separate : ∀ p p' o o',
    h !! p = Some (Pattern o) → h !! p' = Some (Pattern o') → p ≠ p' →
    nodes o ≠ nodes o' ∧ children o ≠ children o'
}.

(** *** The invariant of reachable stores *)

Lemma alloc_fresh (h : heap) c : h !! (alloc h c).1 = None.
Proof. apply not_elem_of_dom, is_fresh. Qed.

Lemma alloc_lookup (h : heap) c l x :
  h !! l = Some x → (alloc h c).2 !! l = Some x.
Proof.
  intros Hl. unfold alloc; simpl. rewrite lookup_insert_ne; [done|].
  intros <-. pose proof (alloc_fresh h c) as Hf. unfold alloc in Hf; simpl in Hf.
  congruence.
Qed.

Lemma heap_ok_empty : heap_ok ∅.
Proof. split; intros; simplify_map_eq. Qed.

Lemma heap_ok_init h node1 node2 w v :
  heap_ok h → heap_ok (PatternNode_init h node1 node2 w v).2.
Proof.
  intros [Hn Hc Hs]. unfold PatternNode_init, alloc. simpl.
  set (ln := fresh (dom h)).
  set (h1 := <[ln:=NodeList [node1; node2]]> h).
  set (lc := fresh (dom h1)).
  set (h2 := <[lc:=ChildList []]> h1).
  set (lp := fresh (dom h2)).
  assert (h !! ln = None) as Hln by apply not_elem_of_dom, is_fresh.
  assert (h1 !! lc = None) as Hlc by apply not_elem_of_dom, is_fresh.
  assert (h2 !! lp = None) as Hlp by apply not_elem_of_dom, is_fresh.
  assert (lc ≠ ln) as Hne1 by (intros ->; unfold h1 in Hlc; by simplify_map_eq).
  assert (lp ≠ lc) as Hne2 by (intros ->; unfold h2 in Hlp; by simplify_map_eq).
  assert (lp ≠ ln) as Hne3 by (intros ->; unfold h2, h1 in Hlp; by simplify_map_eq).
  assert (h !! lc = None) as Hlc' by (unfold h1 in Hlc; by simplify_map_eq).
  assert (h !! lp = None) as Hlp' by (unfold h2, h1 in Hlp; by simplify_map_eq).
  assert (∀ l x, h !! l = Some x → l ≠ ln ∧ l ≠ lc ∧ l ≠ lp) as Hold.
  { intros l x Hl. split_and!; intros ->; congruence. }
  assert (∀ l x, h !! l = Some x → <[lp:=Pattern (mkPattern ln w (PatternNode.value_or_hole v w) lc)]> h2 !! l = Some x)
    as Hkeep.
  { intros l x Hl. destruct (Hold _ _ Hl) as (? & ? & ?).
    unfold h2, h1. by rewrite !lookup_insert_ne. }
  assert (∀ p o, <[lp:=Pattern (mkPattern ln w (PatternNode.value_or_hole v w) lc)]> h2 !! p = Some (Pattern o) →
            (p = lp ∧ o = mkPattern ln w (PatternNode.value_or_hole v w) lc) ∨
            (p ≠ lp ∧ h !! p = Some (Pattern o))) as Hcase.
  { intros p o Hp. destruct (decide (p = lp)) as [->|Hp1].
    { rewrite lookup_insert_eq in Hp. left. naive_solver. }
    right. split; [done|]. rewrite lookup_insert_ne in Hp by done. unfold h2, h1 in Hp.
    destruct (decide (p = lc)) as [->|Hp2]; [by rewrite lookup_insert_eq in Hp|].
    rewrite lookup_insert_ne in Hp by done.
    destruct (decide (p = ln)) as [->|Hp3]; [by rewrite lookup_insert_eq in Hp|].
    by rewrite lookup_insert_ne in Hp. }
  split.
  - intros p o [[-> ->]|[_ Hp]]%Hcase; simpl.
    + exists [node1; node2]. unfold h2, h1.
      by rewrite lookup_insert_ne, lookup_insert_ne, lookup_insert_eq.
    + destruct (Hn _ _ Hp) as [l Hl]. exists l. by apply Hkeep.
  - intros p o [[-> ->]|[_ Hp]]%Hcase; simpl.
    + exists []. unfold h2. by rewrite lookup_insert_ne, lookup_insert_eq.
    + destruct (Hc _ _ Hp) as [l Hl]. exists l. by apply Hkeep.
  - intros p p' o o' [[-> ->]|[_ Hp]]%Hcase [[-> ->]|[_ Hp']]%Hcase Hpp'; simpl.
    + done.
    + destruct (Hn _ _ Hp') as [l Hl], (Hc _ _ Hp') as [l' Hl'].
      destruct (Hold _ _ Hl) as (? & ? & ?), (Hold _ _ Hl') as (? & ? & ?). done.
    + destruct (Hn _ _ Hp) as [l Hl], (Hc _ _ Hp) as [l' Hl'].
      destruct (Hold _ _ Hl) as (? & ? & ?), (Hold _ _ Hl') as (? & ? & ?). done.
    + by eapply Hs.
Qed.

Lemma add_nodes_Some h p new h' :
  add_nodes h p new = Some h' →
  ∃ o old, h !! p = Some (Pattern o) ∧ h !! nodes o = Some (NodeList old) ∧
           h' = <[nodes o := NodeList (old ++ new)]> h.
Proof.
  unfold add_nodes. intros Hadd.
  destruct (h !! p) as [[| |o]|] eqn:Hp; try done.
  destruct (h !! nodes o) as [[old| |]|] eqn:Ho; try done.
  exists o, old. naive_solver.
Qed.

Lemma add_children_Some h p new h' :
  add_children h p new = Some h' →
  ∃ o old, h !! p = Some (Pattern o) ∧ h !! children o = Some (ChildList old) ∧
           h' = <[children o := ChildList (old ++ new)]> h.
Proof.
  unfold add_children. intros Hadd.
  destruct (h !! p) as [[| |o]|] eqn:Hp; try done.
  destruct (h !! children o) as [[|old|]|] eqn:Ho; try done.
  exists o, old. naive_solver.
Qed.

(** Overwriting a list object by a list of the same kind keeps the
    invariant: the patterns and the kinds of all cells are as before. *)
Lemma heap_ok_update_list (h : heap) l c c' :
  h !! l = Some c →
  (match c, c' with
   | NodeList _, NodeList _ | ChildList _, ChildList _ => True
   | _, _ => False
   end) →
  heap_ok h → heap_ok (<[l:=c']> h).
Proof.
  intros Hl Hkind [Hn Hc Hs].
  assert (∀ p o, <[l:=c']> h !! p = Some (Pattern o) → h !! p = Some (Pattern o)) as Hpat.
  { intros p o Hp. destruct (decide (p = l)) as [->|Hne].
    - rewrite lookup_insert_eq in Hp. destruct c, c'; naive_solver.
    - by rewrite lookup_insert_ne in Hp. }
  split.
  - intros p o Hp%Hpat. destruct (Hn _ _ Hp) as [ns Hns].
    destruct (decide (nodes o = l)) as [Heq|Hne].
    + rewrite Heq in *. rewrite lookup_insert_eq. destruct c, c'; naive_solver.
    + rewrite lookup_insert_ne by done. eauto.
  - intros p o Hp%Hpat. destruct (Hc _ _ Hp) as [cs Hcs].
    destruct (decide (children o = l)) as [Heq|Hne].
    + rewrite Heq in *. rewrite lookup_insert_eq. destruct c, c'; naive_solver.
    + rewrite lookup_insert_ne by done. eauto.
  - intros p p' o o' Hp%Hpat Hp'%Hpat. by apply Hs.
Qed.

Lemma reachable_ok h : reachable h → heap_ok h.
Proof.
  induction 1 as [|h n1 n2 w v _ IH|h h' p new _ IH Hadd|h h' p new _ IH Hadd].
  - apply heap_ok_empty.
  - by apply heap_ok_init.
  - apply add_nodes_Some in Hadd as (o & old & _ & Ho & ->).
    by eapply heap_ok_update_list.
  - apply add_children_Some in Hadd as (o & old & _ & Ho & ->).
    by eapply heap_ok_update_list.
Qed.

(** *** [add_nodes] changes the member list of its receiver, and nothing else *)

Lemma fields_Some h p ns w v cs :
  fields h p = Some (ns, w, v, cs) ↔
  ∃ o, h !! p = Some (Pattern o) ∧ h !! nodes o = Some (NodeList ns) ∧
       h !! children o = Some (ChildList cs) ∧ weight o = w ∧ value o = v.
Proof.
  unfold fields. split.
  - destruct (h !! p) as [[| |o]|] eqn:Hp; try done.
    destruct (h !! nodes o) as [[| |]|] eqn:Hns; try done.
    destruct (h !! children o) as [[| |]|] eqn:Hcs; try done.
    intros [= -> <- <- ->]. by exists o.
  - intros (o & -> & -> & -> & <- & <-). done.
Qed.

Lemma fields_pattern h p o :
  heap_ok h → h !! p = Some (Pattern o) →
  ∃ ns cs, fields h p = Some (ns, weight o, value o, cs).
Proof.
  intros [Hn Hc _] Hp. destruct (Hn _ _ Hp) as [ns Hns], (Hc _ _ Hp) as [cs Hcs].
  exists ns, cs. apply fields_Some. by exists o.
Qed.

Lemma add_nodes_fields_other h p new h' q :
  heap_ok h → add_nodes h p new = Some h' → q ≠ p → fields h' q = fields h q.
Proof.
  intros Hok (o & old & Hp & Ho & ->)%add_nodes_Some Hqp. unfold fields.
  destruct (decide (q = nodes o)) as [->|Hq1].
  { by rewrite lookup_insert_eq, Ho. }
  rewrite lookup_insert_ne by done.
  destruct (h !! q) as [[| |o']|] eqn:Hq; try done.
  pose proof Hok as [Hn Hc Hs].
  destruct (Hs _ _ _ _ Hq Hp Hqp) as [Hnn _].
  destruct (Hc _ _ Hq) as [cs Hcs].
  assert (children o' ≠ nodes o) as Hcn by (intros Heq; rewrite Heq in Hcs; congruence).
  by rewrite !lookup_insert_ne.
Qed.

(** C5.  In a store the class can produce, [add_nodes] on a pattern [p]
    succeeds; afterwards [p] has the weight, the value and the children it
    had, and its member nodes are the old ones, in order, followed by the
    new ones; every other pattern reads as before, and no object of the
    store other than [p]'s member list has changed. *)
Theorem add_nodes_frame (h : heap) (p : loc) (o : pattern) (new : list TreeNode.TreeNode) :
  reachable h → h !! p = Some (Pattern o) →
  ∃ ns cs h',
    fields h p = Some (ns, weight o, value o, cs) ∧
    add_nodes h p new = Some h' ∧
    fields h' p = Some (ns ++ new, weight o, value o, cs) ∧
    h' !! p = Some (Pattern o) ∧
    h' !! children o = h !! children o ∧
    (∀ q, q ≠ p → fields h' q = fields h q) ∧
    (∀ l, l ≠ nodes o → h' !! l = h !! l).
Proof.
  intros Hok%reachable_ok Hp.
  destruct (fields_pattern _ _ _ Hok Hp) as (ns & cs & Hf).
  pose proof Hf as (o' & Hp' & Hns & Hcs & _)%fields_Some.
  assert (o' = o) as -> by congruence.
  assert (add_nodes h p new = Some (<[nodes o := NodeList (ns ++ new)]> h)) as Hadd.
  { unfold add_nodes. by rewrite Hp, Hns. }
  assert (p ≠ nodes o) as Hpn by (intros Heq; rewrite <-Heq in Hns; congruence).
  assert (children o ≠ nodes o) as Hcn by (intros Heq; rewrite Heq in Hcs; congruence).
  exists ns, cs, (<[nodes o := NodeList (ns ++ new)]> h).
  split_and!; try done.
  - apply fields_Some. exists o.
    by rewrite lookup_insert_eq, !lookup_insert_ne.
  - by rewrite lookup_insert_ne.
  - by rewrite lookup_insert_ne.
  - intros q Hq. by eapply add_nodes_fields_other.
  - intros l Hl. by rewrite lookup_insert_ne.
Qed.

(** X14.  [add_nodes] changes no skeleton: every pattern of the store,
    read as a value to any depth, has the skeleton it had, so no comparison
    between patterns of the store changes its result. *)
Lemma add_nodes_skeleton h p new h' depth q :
  heap_ok h → add_nodes h p new = Some h' →
  PatternNode.skeleton <$> reify depth h' q = PatternNode.skeleton <$> reify depth h q.
Proof.
  intros Hok Hadd. revert q. induction depth as [|depth IH]; intros q; [done|].
  simpl.
  assert (∀ cs, fmap PatternNode.skeleton <$> mapM (reify depth h') cs
              = fmap PatternNode.skeleton <$> mapM (reify depth h) cs) as Hkids.
  { induction cs as [|c cs IHcs]; [done|]. simpl.
    specialize (IH c).
    destruct (reify depth h' c), (reify depth h c); simplify_eq/=; try done.
    destruct (mapM (reify depth h') cs), (mapM (reify depth h) cs); simplify_eq/=; try done.
    by rewrite IH, IHcs. }
  destruct (decide (q = p)) as [->|Hq].
  - pose proof Hadd as (o & old & Hp & Ho & ->)%add_nodes_Some.
    destruct (fields_pattern _ _ _ Hok Hp) as (ns & cs & Hf).
    pose proof Hf as (o' & Hp' & Hns & Hcs & _)%fields_Some.
    assert (o' = o) as -> by congruence.
    assert (p ≠ nodes o) as Hpn by (intros Heq; rewrite <-Heq in Hns; congruence).
    assert (children o ≠ nodes o) as Hcn by (intros Heq; rewrite Heq in Hcs; congruence).
    assert (fields (<[nodes o := NodeList (old ++ new)]> h) p
            = Some (old ++ new, weight o, value o, cs)) as ->.
    { apply fields_Some. exists o. by rewrite lookup_insert_eq, !lookup_insert_ne. }
    rewrite Hf. simpl. specialize (Hkids cs).
    destruct (mapM _ cs), (mapM _ cs); simplify_eq/=; try done.
    congruence.
  - rewrite (add_nodes_fields_other h p new h' q) by done.
    destruct (fields h q) as [[[[ns w] v] cs]|]; [|done]. simpl.
    specialize (Hkids cs).
    destruct (mapM _ cs), (mapM _ cs); simplify_eq/=; try done.
    congruence.
Qed.

(** A store with one pattern, and [add_nodes] on it. *)
Definition sample_store : loc * heap :=
  PatternNode_init ∅ (TreeNode.TreeNode_init Sample.name_x)
    (TreeNode.TreeNode_init Sample.num_1) 2 (Some "Name").

Lemma add_nodes_frame_sample :
  reachable sample_store.2 ∧
  ∃ o h', sample_store.2 !! sample_store.1 = Some (Pattern o) ∧
    add_nodes sample_store.2 sample_store.1 [TreeNode.TreeNode_init Sample.add_op] = Some h' ∧
    h' !! sample_store.1 = Some (Pattern o).
Proof.
  assert (reachable sample_store.2) as Hr by (apply reach_init, reach_empty).
  split; [exact Hr|].
  assert (∃ o, sample_store.2 !! sample_store.1 = Some (Pattern o)) as [o Ho].
  { eexists. unfold sample_store, PatternNode_init, alloc. simpl. apply lookup_insert_eq. }
  destruct (add_nodes_frame _ _ _ [TreeNode.TreeNode_init Sample.add_op] Hr Ho)
    as (ns & cs & h' & _ & Hadd & _ & Hp & _).
  by exists o, h'.
Defined.

(** *** [add_children] and the constructor, on the store *)

Lemma add_children_fields_other h p new h' q :
  heap_ok h → add_children h p new = Some h' → q ≠ p → fields h' q = fields h q.
Proof.
  intros Hok (o & old & Hp & Ho & ->)%add_children_Some Hqp. unfold fields.
  destruct (decide (q = children o)) as [->|Hq1].
  { by rewrite lookup_insert_eq, Ho. }
  rewrite lookup_insert_ne by done.
  destruct (h !! q) as [[| |o']|] eqn:Hq; try done.
  pose proof Hok as [Hn Hc Hs].
  destruct (Hs _ _ _ _ Hq Hp Hqp) as [_ Hcc].
  destruct (Hn _ _ Hq) as [ns Hns].
  assert (nodes o' ≠ children o) as Hnc by (intros Heq; rewrite Heq in Hns; congruence).
  by rewrite !lookup_insert_ne.
Qed.

(** X12.  In a store the class can produce, [add_children] on a pattern
    [p] succeeds; afterwards [p] has the member nodes, the weight and the
    value it had, and its children are the old ones, in order, followed by
    the new ones; every other pattern reads as before, and no object of the
    store other than [p]'s children list has changed. *)
Theorem add_children_frame (h : heap) (p : loc) (o : pattern) (new : list loc) :
  reachable h → h !! p = Some (Pattern o) →
  ∃ ns cs h',
    fields h p = Some (ns, weight o, value o, cs) ∧
    add_children h p new = Some h' ∧
    fields h' p = Some (ns, weight o, value o, cs ++ new) ∧
    h' !! p = Some (Pattern o) ∧
    h' !! nodes o = h !! nodes o ∧
    (∀ q, q ≠ p → fields h' q = fields h q) ∧
    (∀ l, l ≠ children o → h' !! l = h !! l).
Proof.
  intros Hok%reachable_ok Hp.
  destruct (fields_pattern _ _ _ Hok Hp) as (ns & cs & Hf).
  pose proof Hf as (o' & Hp' & Hns & Hcs & _)%fields_Some.
  assert (o' = o) as -> by congruence.
  assert (add_children h p new = Some (<[children o := ChildList (cs ++ new)]> h)) as Hadd.
  { unfold add_children. by rewrite Hp, Hcs. }
  assert (p ≠ children o) as Hpc by (intros Heq; rewrite <-Heq in Hcs; congruence).
  assert (nodes o ≠ children o) as Hnc by (intros Heq; rewrite Heq in Hns; congruence).
  exists ns, cs, (<[children o := ChildList (cs ++ new)]> h).
  split_and!; try done.
  - apply fields_Some. exists o.
    by rewrite lookup_insert_eq, !lookup_insert_ne.
  - by rewrite lookup_insert_ne.
  - by rewrite lookup_insert_ne.
  - intros q Hq. by eapply add_children_fields_other.
  - intros l Hl. by rewrite lookup_insert_ne.
Qed.

Lemma add_children_frame_sample :
  reachable sample_store.2 ∧
  ∃ o h', sample_store.2 !! sample_store.1 = Some (Pattern o) ∧
    add_children sample_store.2 sample_store.1 [sample_store.1] = Some h' ∧
    h' !! nodes o = sample_store.2 !! nodes o.
Proof.
  assert (reachable sample_store.2) as Hr by (apply reach_init, reach_empty).
  split; [exact Hr|].
  assert (∃ o, sample_store.2 !! sample_store.1 = Some (Pattern o)) as [o Ho].
  { eexists. unfold sample_store, PatternNode_init, alloc. simpl. apply lookup_insert_eq. }
  destruct (add_children_frame _ _ _ [sample_store.1] Hr Ho)
    as (ns & cs & h' & _ & Hadd & _ & _ & Hnodes & _).
  by exists o, h'.
Defined.

(** X13.  Constructing a pattern in a store the class can produce gives a
    new object with lists of its own: it reads as the two nodes, the weight,
    the value (or hole marker) and no children, that is, as the value
    [PatternNode.PatternNode_init] builds; and every object that was in the
    store is as before. *)
Theorem init_is_fresh (h : heap) (node1 node2 : TreeNode.TreeNode) (w : Z)
    (v : option string) :
  reachable h →
  let '(p, h') := PatternNode_init h node1 node2 w v in
  h !! p = None ∧
  fields h' p = Some ([node1; node2], w, PatternNode.value_or_hole v w, []) ∧
  (∀ depth, reify (S depth) h' p = Some (PatternNode.PatternNode_init node1 node2 w v)) ∧
  (∀ l x, h !! l = Some x → h' !! l = Some x) ∧
  (∀ q, q ≠ p → fields h' q = fields h q).
Proof.
  intros Hok%reachable_ok. unfold PatternNode_init, alloc. simpl.
  set (ln := fresh (dom h)).
  set (h1 := <[ln:=NodeList [node1; node2]]> h).
  set (lc := fresh (dom h1)).
  set (h2 := <[lc:=ChildList []]> h1).
  set (lp := fresh (dom h2)).
  set (o := mkPattern ln w (PatternNode.value_or_hole v w) lc).
  assert (h !! ln = None) as Hln by apply not_elem_of_dom, is_fresh.
  assert (h1 !! lc = None) as Hlc by apply not_elem_of_dom, is_fresh.
  assert (h2 !! lp = None) as Hlp by apply not_elem_of_dom, is_fresh.
  assert (lc ≠ ln) as Hne1 by (intros ->; unfold h1 in Hlc; by simplify_map_eq).
  assert (lp ≠ lc) as Hne2 by (intros ->; unfold h2 in Hlp; by simplify_map_eq).
  assert (lp ≠ ln) as Hne3 by (intros ->; unfold h2, h1 in Hlp; by simplify_map_eq).
  assert (h !! lc = None) as Hlc' by (unfold h1 in Hlc; by simplify_map_eq).
  assert (h !! lp = None) as Hlp' by (unfold h2, h1 in Hlp; by simplify_map_eq).
  assert (∀ l x, h !! l = Some x → <[lp:=Pattern o]> h2 !! l = Some x) as Hkeep.
  { intros l x Hl. unfold h2, h1.
    rewrite !lookup_insert_ne; [done | | |]; intros ->; congruence. }
  assert (fields (<[lp:=Pattern o]> h2) lp
          = Some ([node1; node2], w, PatternNode.value_or_hole v w, [])) as Hfields.
  { apply fields_Some. exists o. unfold h2, h1. simpl.
    rewrite lookup_insert_eq.
    rewrite (lookup_insert_ne _ lp ln), (lookup_insert_ne _ lc ln), lookup_insert_eq by done.
    by rewrite (lookup_insert_ne _ lp lc), lookup_insert_eq by done. }
  split_and!; [done | done | | done |].
  - intros depth. simpl. by rewrite Hfields.
  - intros q Hq. unfold fields. rewrite lookup_insert_ne by done.
    unfold h2, h1.
    destruct (decide (q = lc)) as [->|Hq2].
    { by rewrite lookup_insert_eq, Hlc'. }
    rewrite lookup_insert_ne by done.
    destruct (decide (q = ln)) as [->|Hq3].
    { by rewrite lookup_insert_eq, Hln. }
    rewrite lookup_insert_ne by done.
    destruct (h !! q) as [[| |o']|] eqn:Hq'; try done.
    destruct Hok as [Hn Hc _].
    destruct (Hn _ _ Hq') as [ns Hns], (Hc _ _ Hq') as [cs Hcs].
    fold h1. fold h2.
    by rewrite (Hkeep _ _ Hns), (Hkeep _ _ Hcs), Hns, Hcs.
Qed.

Lemma init_is_fresh_sample :
  reachable sample_store.2 ∧
  let '(p, h') := PatternNode_init sample_store.2 (TreeNode.TreeNode_init Sample.add_op)
                    (TreeNode.TreeNode_init Sample.num_1) 1 None in
  sample_store.2 !! p = None ∧ fields h' sample_store.1 = fields sample_store.2 sample_store.1.
Proof.
  assert (reachable sample_store.2) as Hr by (apply reach_init, reach_empty).
  split; [exact Hr|].
  pose proof (init_is_fresh sample_store.2 (TreeNode.TreeNode_init Sample.add_op)
                (TreeNode.TreeNode_init Sample.num_1) 1 None Hr) as Hfresh.
  destruct (PatternNode_init _ _ _ _ _) as [p h'].
  destruct Hfresh as (Hnew & _ & _ & _ & Hothers).
  split; [done|]. apply Hothers. intros Heq.
  assert (is_Some (sample_store.2 !! sample_store.1)) as [x Hx].
  { eexists. unfold sample_store, PatternNode_init, alloc. simpl. apply lookup_insert_eq. }
  rewrite Heq, Hnew in Hx. done.
Defined.

(** [add_nodes] on the sample store keeps every skeleton. *)
Lemma add_nodes_skeleton_sample :
  heap_ok sample_store.2 ∧
  ∃ h', add_nodes sample_store.2 sample_store.1 [TreeNode.TreeNode_init Sample.add_op]
          = Some h' ∧
        PatternNode.skeleton <$> reify 2 h' sample_store.1
        = PatternNode.skeleton <$> reify 2 sample_store.2 sample_store.1.
Proof.
  assert (heap_ok sample_store.2) as Hok by (apply reachable_ok, reach_init, reach_empty).
  split; [exact Hok|].
  assert (is_Some (add_nodes sample_store.2 sample_store.1
                     [TreeNode.TreeNode_init Sample.add_op])) as [h' Hadd].
  { apply (bool_decide_unpack _). by vm_compute. }
  exists h'. split; [done|]. by apply (add_nodes_skeleton _ _ _ _ 2 _ Hok Hadd).
Defined.

End PatternHeap.

(** ** [engine/errors/user_input.py] and [web/analyzer.py] *)

Module Analyzer.

(** [UserInputError]: the message to print and the exit code to use. *)
Record UserInputError : Type := mkUserInputError {
  message : string;
  code : Z
}.

(** [UserInputError.__init__(self, message, code=1)] *)
Definition UserInputError_init (message : string) (code : option Z) : UserInputError :=
  {| message := message; code := default 1%Z code |}.

(** [NodeOrigin]: file, line, column. *)
Record NodeOrigin : Type := mkNodeOrigin {
  file : string;
  line : Z;
  col_offset : Z
}.

#[export] Instance NodeOrigin_eq_dec : EqDecision NodeOrigin.
Proof. solve_decision. Defined.

(** What the analyzer reads of a node of a module: [n.type2_pattern()],
    [n.weight], [n.node.__class__.__name__] and [n.origin]. *)
Record ModuleNode : Type := mkModuleNode {
  type2_pattern : string;
  weight : Z;
  class_name : string;
  origin : NodeOrigin
}.

(** The rows of the tables the analyzer writes. *)
Record pattern_row : Type := mkPatternRow {
  pattern_id : Z;
  pattern_dump : string;
  pattern_hash : string;
  pattern_weight : Z;
  pattern_class : string
}.

Record instance_row : Type := mkInstanceRow {
  instance_pattern : option Z;
  instance_commit : Z;
  instance_file : string;
  instance_line : Z;
  instance_col_offset : Z
}.

Record commit_row : Type := mkCommitRow {
  commit_id : Z;
  commit_repo : Z;
  commit_hash : string
}.

Record cluster_row : Type := mkClusterRow {
  cluster_id : Z;
  cluster_commit : Z;
  cluster_value : string;
  cluster_weight : Z
}.

Section analyzer.

(** [hashlib.md5(s.encode('utf-8')).hexdigest()] *)
Context (md5 : string → string).
(** Similarity scores (floats) and [psycopg2.Error] values. *)
Context {similarity PG_Error : Type}.

Record origin_row : Type := mkOriginRow {
  origin_cluster : Z;
  origin_file : string;
  origin_line : Z;
  origin_col_offset : Z;
  origin_similarity : similarity
}.

(** [DetectedClone]: [origins] is a dict, iterated in insertion order. *)
Record DetectedClone : Type := mkDetectedClone {
  value : string;
  match_weight : Z;
  origins : list (NodeOrigin * similarity)
}.

Record DetectionResult : Type := mkDetectionResult {
  clones : list DetectedClone
}.

(** What [analyze_repo] learns from its [RepoInfo]: the outcome of
    [clone_or_pull()], the commit [hash], and the modules
    [get_modules_from_dir(repo_info.dir)] parses. *)
Record RepoInfo : Type := mkRepoInfo {
  clone_or_pull : bool;
  hash : string;
  modules_in_dir : list (list ModuleNode)
}.

(** The tables.  [repos] maps a repository id to the name of its status. *)
Record tables : Type := mkTables {
  patterns : list pattern_row;
  pattern_instances : list instance_row;
  commits : list commit_row;
  clusters : list cluster_row;
  origin_rows : list origin_row;
  repos : gmap Z string
}.

(** A connection: the tables as this connection sees them, the serial
    counters (sequences are not rolled back), how many statements were
    issued, and whether [close()] was called. *)
Record conn : Type := mkConn {
  db : tables;
  patterns_seq : Z;
  commits_seq : Z;
  clusters_seq : Z;
  issued : nat;
  closed : bool
}.

Variant exn : Type :=
  | PGError (e : PG_Error)
  | UserInput (e : UserInputError).

Variant result (A : Type) : Type :=
  | Ok (a : A)
  | Raise (e : exn).
Arguments Ok {A} a.
Arguments Raise {A} e.

(** Code that uses the connection and may raise. *)
Definition M (A : Type) : Type := conn → result A * conn.

Definition ret {A} (a : A) : M A := λ c, (Ok a, c).

Definition bind {A B} (m : M A) (k : A → M B) : M B := λ c,
  match m c with
  | (Ok a, c) => k a c
  | (Raise e, c) => (Raise e, c)
  end.

Definition raise {A} (e : exn) : M A := λ c, (Raise e, c).

#[local] Instance M_ret : MRet M := @ret.
#[local] Instance M_bind : MBind M := λ A B k m, bind m k.

(** [for x in l: body(x)] *)
Fixpoint for_each {A} (l : list A) (body : A → M ()) : M () :=
  match l with
  | [] => ret ()
  | x :: l => body x;; for_each l body
  end.

(** *** The database, as the analyzer uses it *)

(** Which statements the database refuses: [fails n = Some e] when the
    statement issued as the [n]-th on the connection raises [e]. *)
Context (fails : nat → option PG_Error).

Definition tick (c : conn) : conn :=
  mkConn (db c) (patterns_seq c) (commits_seq c) (clusters_seq c) (S (issued c)) (closed c).

(** One statement: counted, then refused by the database or run. *)
Definition statement {A} (run : conn → A * conn) : M A := λ c,
  match fails (issued c) with
  | Some e => (Raise (PGError e), tick c)
  | None => let '(a, c) := run (tick c) in (Ok a, c)
  end.

Definition with_db (c : conn) (t : tables) : conn :=
  mkConn t (patterns_seq c) (commits_seq c) (clusters_seq c) (issued c) (closed c).

(** [with conn.transaction(): body]: the body's statements and then the
    commit; when either raises, the tables are as they were before the
    block and the exception goes on. *)
Definition transaction {A} (body : M A) : M A := λ c,
  match (a ← body; statement (λ c, ((), c));; ret a) c with
  | (Ok a, c') => (Ok a, c')
  | (Raise e, c') => (Raise e, with_db c' (db c))
  end.

(** [conn.close()] *)
Definition close : M () := λ c,
  (Ok (), mkConn (db c) (patterns_seq c) (commits_seq c) (clusters_seq c) (issued c) true).

(** [try: body / except PG_Error as ex: handler(ex)] *)
Definition try_except_PG {A} (body : M A) (handler : PG_Error → M A) : M A := λ c,
  match body c with
  | (Raise (PGError ex), c) => handler ex c
  | r => r
  end.

(** [try: body / finally: cleanup] *)
Definition try_finally {A} (body : M A) (cleanup : M ()) : M A := λ c,
  match body c with
  | (r, c) =>
      match cleanup c with
      | (Ok _, c) => (r, c)
      | (Raise e, c) => (Raise e, c)
      end
  end.

(** Modelled from the spec: the [patterns] table, whose schema is not in
    the sources, has "at-most-one row per hash" (a uniqueness constraint on
    [hash]) and a serial [id].
    [INSERT INTO patterns ("dump", "hash", "weight", "class") VALUES (...)
     ON CONFLICT DO NOTHING RETURNING id;] through [conn.one]: the id of
    the new row, or [None] when a row with this hash exists.  The serial
    counter advances in both cases. *)
Definition insert_pattern (dump hash : string) (weight : Z) (class : string) : M (option Z) :=
  statement (λ c,
    let id := patterns_seq c in
    let t := db c in
    if decide (hash ∈ pattern_hash <$> patterns t)
    then (None,
          mkConn t (id + 1) (commits_seq c) (clusters_seq c) (issued c) (closed c))
    else (Some id,
          mkConn (mkTables (patterns t ++ [mkPatternRow id dump hash weight class])
                    (pattern_instances t) (commits t) (clusters t) (origin_rows t) (repos t))
                 (id + 1) (commits_seq c) (clusters_seq c) (issued c) (closed c))).

(** The id of the first row with this hash. *)
Definition pattern_with_hash (ps : list pattern_row) (hash : string) : option Z :=
  pattern_id <$> head (filter (λ r, pattern_hash r = hash) ps).

(** [SELECT id FROM patterns WHERE "hash" = %s;] through [conn.one] *)
Definition select_pattern (hash : string) : M (option Z) :=
  statement (λ c, (pattern_with_hash (patterns (db c)) hash, c)).

(** [INSERT INTO pattern_instances (pattern_id, commit_id, "file", "line",
    col_offset) VALUES (...);]: the table has no uniqueness constraint. *)
Definition insert_instance (pattern : option Z) (commit : Z) (o : NodeOrigin) : M () :=
  statement (λ c,
    let t := db c in
    ((), with_db c
           (mkTables (patterns t)
              (pattern_instances t ++
                 [mkInstanceRow pattern commit (file o) (line o) (col_offset o)])
              (commits t) (clusters t) (origin_rows t) (repos t)))).

(** [INSERT INTO commits (repo_id, hash) VALUES (%s, %s) RETURNING id;] *)
Definition insert_commit (repo_id : Z) (hash : string) : M Z :=
  statement (λ c,
    let id := commits_seq c in
    let t := db c in
    (id, mkConn (mkTables (patterns t) (pattern_instances t)
                   (commits t ++ [mkCommitRow id repo_id hash])
                   (clusters t) (origin_rows t) (repos t))
                (patterns_seq c) (id + 1) (clusters_seq c) (issued c) (closed c))).

(** [INSERT INTO clusters (commit_id, "value", weight) VALUES (%s, %s, %s)
    RETURNING id;] *)
Definition insert_cluster (commit : Z) (value : string) (weight : Z) : M Z :=
  statement (λ c,
    let id := clusters_seq c in
    let t := db c in
    (id, mkConn (mkTables (patterns t) (pattern_instances t) (commits t)
                   (clusters t ++ [mkClusterRow id commit value weight])
                   (origin_rows t) (repos t))
                (patterns_seq c) (commits_seq c) (id + 1) (issued c) (closed c))).

(** [INSERT INTO origins (cluster_id, file, line, col_offset, similarity)
    VALUES (...);] *)
Definition insert_origin (cluster : Z) (o : NodeOrigin) (s : similarity) : M () :=
  statement (λ c,
    let t := db c in
    ((), with_db c
           (mkTables (patterns t) (pattern_instances t) (commits t) (clusters t)
              (origin_rows t ++ [mkOriginRow cluster (file o) (line o) (col_offset o) s])
              (repos t)))).

(** [UPDATE repos SET status = (SELECT id FROM states WHERE name = ...)
    WHERE id = %s;] *)
Definition update_status (status : string) (repo_id : Z) : M () :=
  statement (λ c,
    let t := db c in
    ((), with_db c
           (mkTables (patterns t) (pattern_instances t) (commits t) (clusters t)
              (origin_rows t) (alter (λ _, status) repo_id (repos t))))).

(** *** [web/analyzer.py] *)

Definition _get_md5 (s : string) : string := md5 s.

Definition _get_pattern_id (node : ModuleNode) : M (option Z) :=
  let dump := type2_pattern node in
  let dump_md5 := _get_md5 dump in
  pattern_id ← insert_pattern dump dump_md5 (weight node) (class_name node);
  match pattern_id with
  | None => select_pattern dump_md5
  | Some _ => ret pattern_id
  end.

Definition _extract_patterns (commit_id : Z) (modules : list (list ModuleNode)) : M () :=
  let nodes := concat modules in
  for_each nodes (λ n,
    pattern_id ← _get_pattern_id n;
    insert_instance pattern_id commit_id (origin n)).

(** Modelled from the spec: [run_single_repo] of
    [engine/algorithms/algorithm_runner.py], the spec's
    [detect(modules, strategyName)].  "The strategy name selects among
    registered implementations"; it "fails with an [UnsupportedStrategy]
    condition for an unregistered strategy name; otherwise this stage
    performs no I/O and cannot fail on well-formed input". *)
Context (strategies : gmap string (list (list ModuleNode) → DetectionResult)).

Definition UnsupportedStrategy (algorithm : string) : UserInputError :=
  UserInputError_init ("UnsupportedStrategy: " +:+ algorithm) None.

Definition run_single_repo (modules : list (list ModuleNode)) (algorithm : string) :
    UserInputError + DetectionResult :=
  match strategies !! algorithm with
  | Some detect => inr (detect modules)
  | None => inl (UnsupportedStrategy algorithm)
  end.

(** [handle_pg_error(ex, conn, repo_id)] of [web/pg_error_handler.py],
    which is not among the sources: any code using the connection. *)
Context (handle_pg_error : PG_Error → Z → M ()).

(** The first [with conn.transaction():] block of [analyze_repo]. *)
Definition persist_result (repo_info : RepoInfo) (repo_id : Z) (result : DetectionResult) : M Z :=
  commit_id ← insert_commit repo_id (hash repo_info);
  for_each (clones result) (λ c,
    cluster_id ← insert_cluster commit_id (value c) (match_weight c);
    for_each (origins c) (λ '(o, s), insert_origin cluster_id o s));;
  update_status "done" repo_id;;
  ret commit_id.

(** [analyze_repo(repo_info, repo_id, algorithm)], from the point where
    the connection is open.  Logging is left out. *)
Definition analyze_repo (repo_info : RepoInfo) (repo_id : Z) (algorithm : string) : M () :=
  try_finally
    (try_except_PG
       (if clone_or_pull repo_info then
          let modules := modules_in_dir repo_info in
          if decide (modules = []) then ret ()
          else
            match run_single_repo modules algorithm with
            | inl e => raise (UserInput e)
            | inr result =>
                commit_id ← transaction (persist_result repo_info repo_id result);
                transaction (_extract_patterns commit_id modules);;
                ret ()
            end
        else update_status "err_clone" repo_id)
       (λ ex, handle_pg_error ex repo_id))
    close.

(** *** Reading results back: [find_repo_results] and [_get_repo_summary] *)

(** [analyzed_at], a column of [commits] the rows above do not carry: the
    time at which the commit with a given id was analyzed. *)
Context (analyzed_at : Z → Z).

(** [... ORDER BY analyzed_at DESC LIMIT 1]: a row with the greatest
    [analyzed_at]; among several, the first in table order. *)
Definition most_recent (rows : list commit_row) : option commit_row :=
  foldl (λ best r,
           match best with
           | None => Some r
           | Some b =>
               if decide (analyzed_at (commit_id b) < analyzed_at (commit_id r))%Z
               then Some r else Some b
           end) None rows.

(** [SELECT id FROM commits WHERE repo_id = %s ORDER BY analyzed_at DESC
    LIMIT 1;] through [conn.one] *)
Definition select_latest_commit (repo_id : Z) : M (option Z) :=
  statement (λ c,
    (commit_id <$> most_recent (filter (λ r, commit_repo r = repo_id) (commits (db c))), c)).

(** [SELECT id, "value", weight FROM clusters WHERE commit_id = %s;],
    rows in table order *)
Definition select_clusters (commit : Z) : M (list cluster_row) :=
  statement (λ c, (filter (λ r, cluster_commit r = commit) (clusters (db c)), c)).

(** [SELECT file, line, col_offset, similarity FROM origins WHERE
    cluster_id = %s;], rows in table order *)
Definition select_origins (cluster : Z) : M (list origin_row) :=
  statement (λ c, (filter (λ r, origin_cluster r = cluster) (origin_rows (db c)), c)).

(** [d[k] = v] on a dict, kept as its items in insertion order: a key
    that is present keeps its place and gets the new value. *)
Fixpoint dict_set {K V} `{EqDecision K} (d : list (K * V)) (k : K) (v : V) : list (K * V) :=
  match d with
  | [] => [(k, v)]
  | (k', v') :: d => if decide (k' = k) then (k, v) :: d else (k', v') :: dict_set d k v
  end.

(** [acc = []; for x in l: acc.append(body(x))] *)
Fixpoint collect {A B} (l : list A) (body : A → M B) : M (list B) :=
  match l with
  | [] => mret []
  | x :: l => y ← body x; ys ← collect l body; mret (y :: ys)
  end.

(** The dict [find_repo_results] builds from the origin rows of a cluster. *)
Definition origins_dict (rows : list origin_row) : list (NodeOrigin * similarity) :=
  foldl (λ origins o,
           dict_set origins
             (mkNodeOrigin (origin_file o) (origin_line o) (origin_col_offset o))
             (origin_similarity o)) [] rows.

(** [find_repo_results(conn, repo_id)]: a message or a [DetectionResult]. *)
Definition find_repo_results (repo_id : Z) : M (string + DetectionResult) :=
  commit_id ← select_latest_commit repo_id;
  match commit_id with
  | None => mret (inl "No commit has been analyzed yet for this repository")
  | Some commit_id =>
      rows ← select_clusters commit_id;
      clones ← collect rows (λ c,
        os ← select_origins (cluster_id c);
        mret (mkDetectedClone (cluster_value c) (cluster_weight c) (origins_dict os)));
      mret (inr (mkDetectionResult clones))
  end.

(** What [_get_repo_summary] reads of a row of [repos] joined with
    [states]. *)
Record repo_dict : Type := mkRepoDict {
  repo_dict_id : Z;
  status_name : string;
  status_desc : string
}.

(** [_get_repo_summary(conn, repo_dict)] *)
Definition _get_repo_summary (repo : option repo_dict) : M (string + DetectionResult) :=
  match repo with
  | None => mret (inl "Database error")
  | Some repo =>
      if decide (status_name repo ∈ ["queue"; "err_clone"; "err_analysis"])
      then mret (inl (status_desc repo))
      else if decide (status_name repo = "done")
      then find_repo_results (repo_dict_id repo)
      else mret (inl "Unexpected repository status")
  end.

(** *** What the properties are stated with *)

(** From [c] on the database refuses nothing. *)
Definition quiet (c : conn) : Prop := ∀ n, issued c ≤ n → fails n = None.

(** Code whose only exceptions are database errors. *)
Definition raises_PG_only {A} (m : M A) : Prop :=
  ∀ c e c1, m c = (Raise e, c1) → ∃ ex, e = PGError ex.

(** What the [patterns] table guarantees: one row per hash, ids handed out
    by the serial counter. *)
Definition store_ok (c : conn) : Prop :=
  NoDup (pattern_hash <$> patterns (db c)) ∧
  NoDup (pattern_id <$> patterns (db c)) ∧
  Forall (λ r, (pattern_id r < patterns_seq c)%Z) (patterns (db c)).

(** Two states of the tables that differ at most in [patterns]. *)
Definition patterns_only (t t' : tables) : Prop :=
  pattern_instances t' = pattern_instances t ∧ commits t' = commits t ∧
  clusters t' = clusters t ∧ origin_rows t' = origin_rows t ∧ repos t' = repos t.

(** The row [_extract_patterns] records for node [n], given the patterns
    table it ends with. *)
Definition instance_of (ps : list pattern_row) (commit_id : Z) (n : ModuleNode) : instance_row :=
  mkInstanceRow (pattern_with_hash ps (_get_md5 (type2_pattern n))) commit_id
    (file (origin n)) (line (origin n)) (col_offset (origin n)).

(** The rows the first block writes for the clones of a result, cluster
    ids counted from [seq]. *)
Definition origin_row_of (cluster : Z) (os : NodeOrigin * similarity) : origin_row :=
  mkOriginRow cluster (file os.1) (line os.1) (col_offset os.1) os.2.

Fixpoint cluster_rows (seq commit : Z) (cs : list DetectedClone) : list cluster_row :=
  match cs with
  | [] => []
  | c :: cs => mkClusterRow seq commit (value c) (match_weight c)
               :: cluster_rows (seq + 1) commit cs
  end.

Fixpoint origin_rows_of (seq : Z) (cs : list DetectedClone) : list origin_row :=
  match cs with
  | [] => []
  | c :: cs => (origin_row_of seq <$> origins c) ++ origin_rows_of (seq + 1) cs
  end.

(** *** Running code on a connection *)

Lemma bind_run {A B} (m : M A) (k : A → M B) c :
  (m ≫= k) c =
  match m c with
  | (Ok a, c) => k a c
  | (Raise e, c) => (Raise e, c)
  end.
Proof. done. Qed.

Lemma bind_Ok {A B} (m : M A) (k : A → M B) c a c1 :
  m c = (Ok a, c1) → (m ≫= k) c = k a c1.
Proof. intros Hm. by rewrite bind_run, Hm. Qed.

Lemma bind_Raise {A B} (m : M A) (k : A → M B) c e c1 :
  m c = (Raise e, c1) → (m ≫= k) c = (Raise e, c1).
Proof. intros Hm. by rewrite bind_run, Hm. Qed.

Lemma bind_Ok_inv {A B} (m : M A) (k : A → M B) c b c2 :
  (m ≫= k) c = (Ok b, c2) → ∃ a c1, m c = (Ok a, c1) ∧ k a c1 = (Ok b, c2).
Proof.
  rewrite bind_run. destruct (m c) as [[a|e] c1]; [|done]. intros Hk. by exists a, c1.
Qed.

Lemma for_each_cons {A} (x : A) l (body : A → M ()) :
  for_each (x :: l) body = (body x ≫= λ _, for_each l body).
Proof. done. Qed.

Lemma quiet_tick c : quiet c → quiet (tick c).
Proof. intros Hq n Hn. apply Hq. simpl in Hn. lia. Qed.

Lemma statement_quiet {A} (run : conn → A * conn) c :
  quiet c → statement run c = (let '(a, c) := run (tick c) in (Ok a, c)).
Proof. intros Hq. unfold statement. by rewrite (Hq (issued c)). Qed.

Lemma statement_Ok_inv {A} (run : conn → A * conn) c a c1 :
  statement run c = (Ok a, c1) → run (tick c) = (a, c1).
Proof.
  unfold statement. destruct (fails (issued c)); [done|].
  destruct (run (tick c)) as [a' c']. by intros [= -> ->].
Qed.

Lemma statement_PG_only {A} (run : conn → A * conn) : raises_PG_only (statement run).
Proof.
  intros c e c1. unfold statement. destruct (fails (issued c)) as [ex|].
  - intros [= <- _]. by exists ex.
  - by destruct (run (tick c)).
Qed.

Lemma ret_PG_only {A} (a : A) : raises_PG_only (mret a).
Proof. by intros c e c1. Qed.

Lemma bind_PG_only {A B} (m : M A) (k : A → M B) :
  raises_PG_only m → (∀ a, raises_PG_only (k a)) → raises_PG_only (m ≫= k).
Proof.
  intros Hm Hk c e c1. rewrite bind_run.
  destruct (m c) as [[a|e'] c'] eqn:Hmc.
  - apply Hk.
  - intros [= <- <-]. by eapply Hm.
Qed.

Lemma for_each_PG_only {A} (l : list A) (body : A → M ()) :
  (∀ x, raises_PG_only (body x)) → raises_PG_only (for_each l body).
Proof.
  intros Hbody. induction l as [|x l IH].
  - by intros c e c1.
  - rewrite for_each_cons. apply bind_PG_only; [apply Hbody | by intros _].
Qed.

Lemma transaction_PG_only {A} (body : M A) :
  raises_PG_only body → raises_PG_only (transaction body).
Proof.
  intros Hbody c e c1. unfold transaction.
  destruct ((body ≫= _) c) as [[a|e'] c'] eqn:Hrun; [done|].
  intros [= <- _]. revert Hrun. apply bind_PG_only; [done|].
  intros a. apply bind_PG_only; [apply statement_PG_only | intros _; apply ret_PG_only].
Qed.

(** A block that raises leaves the tables as they were. *)
Lemma transaction_rollback {A} (body : M A) c e c1 :
  transaction body c = (Raise e, c1) → db c1 = db c.
Proof.
  unfold transaction. destruct ((body ≫= _) c) as [[a|e'] c']; [done|].
  by intros [= _ <-].
Qed.

Lemma transaction_Ok_inv {A} (body : M A) c a c2 :
  transaction body c = (Ok a, c2) →
  ∃ c1, body c = (Ok a, c1) ∧ fails (issued c1) = None ∧ c2 = tick c1.
Proof.
  unfold transaction. destruct ((body ≫= _) c) as [[a'|e'] c'] eqn:Hrun; [|done].
  intros [= -> ->]. apply bind_Ok_inv in Hrun as (a' & c1 & Hbody & Hrun).
  apply bind_Ok_inv in Hrun as ([] & c1' & Hcommit & [= -> ->]).
  exists c1. split; [done|]. unfold statement in Hcommit.
  destruct (fails (issued c1)); [done|]. by injection Hcommit as <-.
Qed.

Lemma transaction_quiet {A} (body : M A) c a c1 :
  body c = (Ok a, c1) → quiet c1 → transaction body c = (Ok a, tick c1).
Proof.
  intros Hbody Hq. unfold transaction.
  rewrite (bind_Ok _ _ _ _ _ Hbody), bind_run, statement_quiet by done. done.
Qed.

(** *** Interning patterns *)

Lemma pattern_with_hash_elem ps h :
  h ∈ pattern_hash <$> ps →
  ∃ r, r ∈ ps ∧ pattern_hash r = h ∧ pattern_with_hash ps h = Some (pattern_id r).
Proof.
  unfold pattern_with_hash. induction ps as [|r ps IH]; intros Hh.
  { by apply not_elem_of_nil in Hh. }
  destruct (decide (pattern_hash r = h)) as [Hr|Hr].
  - exists r. rewrite filter_cons_True by done. split_and!; [left | done | done].
  - rewrite fmap_cons in Hh. apply elem_of_cons in Hh as [Hh|Hh]; [done|].
    destruct (IH Hh) as (r' & Hr' & Hhash & Hfind). exists r'.
    rewrite filter_cons_False by done. split_and!; [by right | done | done].
Qed.

Lemma pattern_with_hash_Some ps h i :
  pattern_with_hash ps h = Some i →
  ∃ r, r ∈ ps ∧ pattern_hash r = h ∧ pattern_id r = i.
Proof.
  unfold pattern_with_hash. intros Hfind.
  destruct (filter _ ps) as [|r rs] eqn:Hf; simplify_eq/=.
  assert (r ∈ filter (λ r, pattern_hash r = h) ps) as Hr by (rewrite Hf; left).
  apply list_elem_of_filter in Hr as [Hh Hr]. by exists r.
Qed.

Lemma pattern_with_hash_app ps ps' h i :
  pattern_with_hash ps h = Some i → pattern_with_hash (ps ++ ps') h = Some i.
Proof.
  unfold pattern_with_hash. rewrite filter_app.
  by destruct (filter _ ps).
Qed.

Lemma pattern_with_hash_new ps i d h w cl :
  h ∉ pattern_hash <$> ps →
  pattern_with_hash (ps ++ [mkPatternRow i d h w cl]) h = Some i.
Proof.
  intros Hh. unfold pattern_with_hash. rewrite filter_app, filter_none.
  - by rewrite filter_cons_True.
  - intros r Hr Hhash. apply Hh. rewrite <-Hhash. by apply list_elem_of_fmap_2.
Qed.

Lemma pattern_with_hash_inj ps h h' i :
  NoDup (pattern_id <$> ps) →
  pattern_with_hash ps h = Some i → pattern_with_hash ps h' = Some i → h = h'.
Proof.
  intros Hnd (r & Hr & <- & <-)%pattern_with_hash_Some
             (r' & Hr' & <- & Hid)%pattern_with_hash_Some.
  apply list_elem_of_lookup_1 in Hr as [k Hk], Hr' as [k' Hk'].
  assert (k = k') as ->; [|congruence].
  eapply NoDup_lookup; [done| |].
  - rewrite list_lookup_fmap, Hk. done.
  - rewrite list_lookup_fmap, Hk'. simpl. by rewrite Hid.
Qed.

Lemma pattern_with_hash_unique ps r :
  NoDup (pattern_hash <$> ps) → r ∈ ps →
  pattern_with_hash ps (pattern_hash r) = Some (pattern_id r).
Proof.
  intros Hnd Hr.
  destruct (pattern_with_hash_elem ps (pattern_hash r)) as (r' & Hr' & Hhash & ->).
  { by apply list_elem_of_fmap_2. }
  do 2 f_equal.
  apply list_elem_of_lookup_1 in Hr as [k Hk], Hr' as [k' Hk'].
  assert (k' = k) as ->; [|congruence].
  eapply NoDup_lookup; [exact Hnd| |].
  - by rewrite list_lookup_fmap, Hk'.
  - rewrite list_lookup_fmap, Hk. simpl. congruence.
Qed.

Lemma store_ok_unique c r h :
  store_ok c → r ∈ patterns (db c) → pattern_hash r = h →
  pattern_with_hash (patterns (db c)) h = Some (pattern_id r).
Proof. intros (Hnd & _ & _) Hr <-. by apply pattern_with_hash_unique. Qed.

(** [_get_pattern_id] when the database refuses nothing: the id of the
    row with the node's hash, which is there afterwards. *)
Lemma get_pattern_id_run node c :
  quiet c → store_ok c →
  ∃ i c',
    _get_pattern_id node c = (Ok (Some i), c') ∧
    quiet c' ∧ store_ok c' ∧ patterns_only (db c) (db c') ∧
    pattern_with_hash (patterns (db c')) (md5 (type2_pattern node)) = Some i ∧
    (∃ new, patterns (db c') = patterns (db c) ++ new) ∧
    (md5 (type2_pattern node) ∈ pattern_hash <$> patterns (db c) →
       patterns (db c') = patterns (db c)).
Proof.
  intros Hq (Hh & Hi & Hseq). unfold _get_pattern_id, _get_md5. cbv zeta.
  rewrite bind_run. unfold insert_pattern. rewrite statement_quiet by done. simpl.
  destruct (decide (_ ∈ _)) as [Hin|Hnin]; simpl.
  - unfold select_pattern. rewrite statement_quiet; simpl.
    2:{ intros n Hn. apply Hq. simpl in Hn. lia. }
    destruct (pattern_with_hash_elem _ _ Hin) as (r & Hr & Hhash & Hfind).
    rewrite Hfind. eexists _, _. split; [done|].
    unfold store_ok, patterns_only. simpl. split_and!; try done.
    + intros n Hn. apply Hq. simpl in Hn. lia.
    + eapply Forall_impl; [done|]. simpl. intros; lia.
    + exists []. by rewrite app_nil_r.
  - eexists _, _. split; [done|].
    unfold store_ok, patterns_only. simpl. split_and!; try done.
    + intros n Hn. apply Hq. simpl in Hn. lia.
    + rewrite fmap_app. apply NoDup_app. split_and!; [done| |apply NoDup_singleton].
      intros h Hin ->%list_elem_of_singleton. done.
    + rewrite fmap_app. apply NoDup_app. split_and!; [done| |apply NoDup_singleton].
      intros i Hin ->%list_elem_of_singleton.
      apply list_elem_of_fmap in Hin as (r & Heq & Hr).
      rewrite Forall_forall in Hseq. specialize (Hseq _ Hr). simpl in *.
      rewrite Heq in Hseq. by apply Z.lt_irrefl in Hseq.
    + apply Forall_app. split.
      * eapply Forall_impl; [done|]. simpl. intros; lia.
      * apply Forall_singleton. simpl. lia.
    + by apply pattern_with_hash_new.
    + by eexists.
Qed.

(** C7.  When the database refuses nothing and [patterns] has one row per
    hash: [_get_pattern_id] returns the id of the row with the node's hash
    when there is one, and adds no row then; called again, for a node with
    the same dump, it returns the same id and adds no row; and [patterns]
    still has one row per hash. *)
Theorem get_pattern_id_idempotent (node node' : ModuleNode) (c : conn) :
  quiet c → store_ok c → type2_pattern node' = type2_pattern node →
  ∃ i c1 c2,
    _get_pattern_id node c = (Ok (Some i), c1) ∧
    _get_pattern_id node' c1 = (Ok (Some i), c2) ∧
    (∀ r, r ∈ patterns (db c) → pattern_hash r = _get_md5 (type2_pattern node) →
          i = pattern_id r ∧ patterns (db c1) = patterns (db c)) ∧
    patterns (db c2) = patterns (db c1) ∧
    NoDup (pattern_hash <$> patterns (db c2)) ∧
    store_ok c2.
Proof.
  intros Hq Hok Hdump.
  destruct (get_pattern_id_run node c Hq Hok)
    as (i & c1 & Hrun1 & Hq1 & Hok1 & _ & Hfind1 & _ & Hsame1).
  destruct (get_pattern_id_run node' c1 Hq1 Hok1)
    as (i' & c2 & Hrun2 & _ & Hok2 & _ & Hfind2 & _ & Hsame2).
  rewrite Hdump in Hfind2, Hsame2.
  assert (patterns (db c2) = patterns (db c1)) as Heq.
  { apply Hsame2. apply pattern_with_hash_Some in Hfind1 as (r & Hr & <- & _).
    by apply list_elem_of_fmap_2. }
  assert (i' = i) as -> by (rewrite Heq in Hfind2; congruence).
  exists i, c1, c2. split_and!; try done; [|apply Hok2].
  intros r Hr Hhash. unfold _get_md5 in Hhash.
  assert (patterns (db c1) = patterns (db c)) as Heq1.
  { apply Hsame1. rewrite <-Hhash. by apply list_elem_of_fmap_2. }
  split; [|done].
  pose proof (store_ok_unique c r _ Hok Hr Hhash) as Hfind. rewrite <-Heq1 in Hfind.
  congruence.
Qed.

(** *** Recording instances *)

Lemma insert_instance_run pattern commit o c :
  quiet c →
  insert_instance pattern commit o c =
  (Ok (),
   with_db (tick c)
     (mkTables (patterns (db c))
        (pattern_instances (db c) ++ [mkInstanceRow pattern commit (file o) (line o) (col_offset o)])
        (commits (db c)) (clusters (db c)) (origin_rows (db c)) (repos (db c)))).
Proof. intros Hq. unfold insert_instance. by rewrite statement_quiet. Qed.

Lemma extract_loop commit_id nodes c :
  quiet c → store_ok c →
  ∃ c',
    for_each nodes (λ n, pattern_id ← _get_pattern_id n;
                         insert_instance pattern_id commit_id (origin n)) c = (Ok (), c') ∧
    quiet c' ∧ store_ok c' ∧
    (∃ new, patterns (db c') = patterns (db c) ++ new) ∧
    pattern_instances (db c') =
      pattern_instances (db c) ++ (instance_of (patterns (db c')) commit_id <$> nodes) ∧
    (∀ n, n ∈ nodes →
       is_Some (pattern_with_hash (patterns (db c')) (_get_md5 (type2_pattern n)))) ∧
    commits (db c') = commits (db c) ∧ clusters (db c') = clusters (db c) ∧
    origin_rows (db c') = origin_rows (db c) ∧ repos (db c') = repos (db c).
Proof.
  revert c. induction nodes as [|n nodes IH]; intros c Hq Hok.
  { exists c. split_and!; try done.
    - exists []. by rewrite app_nil_r.
    - simpl. by rewrite app_nil_r.
    - intros n Hn. by apply not_elem_of_nil in Hn. }
  destruct (get_pattern_id_run n c Hq Hok)
    as (i & c1 & Hrun & Hq1 & Hok1 & (Hpi & Hco & Hcl & Hor & Hre) & Hfind & [new Hnew] & _).
  set (c2 := with_db (tick c1)
     (mkTables (patterns (db c1))
        (pattern_instances (db c1) ++
           [mkInstanceRow (Some i) commit_id (file (origin n)) (line (origin n))
              (col_offset (origin n))])
        (commits (db c1)) (clusters (db c1)) (origin_rows (db c1)) (repos (db c1)))).
  assert (quiet c2) as Hq2 by (intros k Hk; apply Hq1; simpl in Hk; lia).
  assert (store_ok c2) as Hok2 by done.
  destruct (IH c2 Hq2 Hok2)
    as (c' & Hloop & Hq' & Hok' & [new' Hnew'] & Hinst & Hsome & Hco' & Hcl' & Hor' & Hre').
  assert (pattern_with_hash (patterns (db c')) (_get_md5 (type2_pattern n)) = Some i) as Hfind'.
  { rewrite Hnew'. by apply pattern_with_hash_app. }
  exists c'. split_and!; try done.
  - rewrite for_each_cons, bind_run, bind_run, Hrun, insert_instance_run by done. done.
  - exists (new ++ new'). rewrite Hnew'. simpl. by rewrite Hnew, (assoc (++)).
  - rewrite Hinst. simpl. rewrite Hpi, <-(assoc (++)). do 2 f_equal.
    unfold instance_of. by rewrite Hfind'.
  - intros m [->|Hm]%elem_of_cons; [by rewrite Hfind' | by apply Hsome].
  - by rewrite Hco'.
  - by rewrite Hcl'.
  - by rewrite Hor'.
  - by rewrite Hre'.
Qed.

Lemma count_instances ps commit_id nodes r :
  NoDup (pattern_hash <$> ps) → NoDup (pattern_id <$> ps) → r ∈ ps →
  (∀ n, n ∈ nodes → is_Some (pattern_with_hash ps (_get_md5 (type2_pattern n)))) →
  length (filter (λ row, instance_pattern row = Some (pattern_id r))
            (instance_of ps commit_id <$> nodes)) =
  length (filter (λ n, _get_md5 (type2_pattern n) = pattern_hash r) nodes).
Proof.
  intros Hh Hi Hr. induction nodes as [|n nodes IH]; intros Hsome; [done|].
  pose proof (pattern_with_hash_unique ps r Hh Hr) as Hfind.
  rewrite fmap_cons.
  assert (instance_pattern (instance_of ps commit_id n) = Some (pattern_id r)
          ↔ _get_md5 (type2_pattern n) = pattern_hash r) as Hiff.
  { simpl. split; [|by intros ->].
    intros Hn. by eapply pattern_with_hash_inj. }
  specialize (IH (λ m Hm, Hsome m (list_elem_of_further _ _ _ Hm))).
  destruct (decide (_get_md5 (type2_pattern n) = pattern_hash r)) as [Heq|Hne].
  - rewrite filter_cons_True by (by apply Hiff).
    rewrite (filter_cons_True _ n) by done. simpl. by rewrite IH.
  - rewrite filter_cons_False by (by rewrite Hiff).
    by rewrite (filter_cons_False _ n).
Qed.

(** C8.  When the database refuses nothing, [_extract_patterns] appends
    to [pattern_instances] one row for each node of the modules, in order,
    with the node's own origin and the id of the pattern with the node's
    hash; so each pattern gets as many new rows as there are nodes with its
    hash, whatever their origins. *)
Theorem extract_patterns_one_row_per_node (commit_id : Z)
    (modules : list (list ModuleNode)) (c : conn) :
  quiet c → store_ok c →
  ∃ c' rows,
    _extract_patterns commit_id modules c = (Ok (), c') ∧
    pattern_instances (db c') = pattern_instances (db c) ++ rows ∧
    rows = instance_of (patterns (db c')) commit_id <$> concat modules ∧
    length rows = length (concat modules) ∧
    Forall (λ row, is_Some (instance_pattern row)) rows ∧
    ∀ r, r ∈ patterns (db c') →
      length (filter (λ row, instance_pattern row = Some (pattern_id r)) rows) =
      length (filter (λ n, _get_md5 (type2_pattern n) = pattern_hash r) (concat modules)).
Proof.
  intros Hq Hok. unfold _extract_patterns. cbv zeta.
  destruct (extract_loop commit_id (concat modules) c Hq Hok)
    as (c' & Hloop & _ & (Hh & Hi & _) & _ & Hinst & Hsome & _).
  exists c', (instance_of (patterns (db c')) commit_id <$> concat modules).
  split_and!; try done.
  - by rewrite length_fmap.
  - apply Forall_fmap, Forall_forall. intros n Hn. by apply Hsome.
  - intros r Hr. by apply count_instances.
Qed.

(** *** [analyze_repo] *)

Lemma analyze_repo_run repo_info repo_id algorithm c :
  clone_or_pull repo_info = true → modules_in_dir repo_info ≠ [] →
  analyze_repo repo_info repo_id algorithm c =
  try_finally
    (try_except_PG
       (match run_single_repo (modules_in_dir repo_info) algorithm with
        | inl e => raise (UserInput e)
        | inr result =>
            commit_id ← transaction (persist_result repo_info repo_id result);
            transaction (_extract_patterns commit_id (modules_in_dir repo_info));;
            mret ()
        end)
       (λ ex, handle_pg_error ex repo_id))
    close c.
Proof.
  intros Hclone Hmods. unfold analyze_repo. rewrite Hclone.
  by destruct (decide (modules_in_dir repo_info = [])).
Qed.

(** C9.  An algorithm name that is not registered makes [run_single_repo]
    fail with the [UnsupportedStrategy] error, whatever the modules, with no
    [DetectionResult]; [analyze_repo] passes the error on to its caller,
    having issued no statement: the tables are as they were, and the
    connection is closed. *)
Theorem unsupported_strategy_fails (repo_info : RepoInfo) (repo_id : Z)
    (algorithm : string) (c : conn) :
  strategies !! algorithm = None →
  (∀ modules, run_single_repo modules algorithm = inl (UnsupportedStrategy algorithm)) ∧
  (clone_or_pull repo_info = true → modules_in_dir repo_info ≠ [] →
   analyze_repo repo_info repo_id algorithm c =
     (Raise (UserInput (UnsupportedStrategy algorithm)),
      mkConn (db c) (patterns_seq c) (commits_seq c) (clusters_seq c) (issued c) true)).
Proof.
  intros Hnone.
  assert (∀ modules, run_single_repo modules algorithm = inl (UnsupportedStrategy algorithm))
    as Hrun by (intros modules; unfold run_single_repo; by rewrite Hnone).
  split; [done|]. intros Hclone Hmods.
  by rewrite analyze_repo_run, Hrun.
Qed.

Lemma origins_loop_Ok cluster os c c1 :
  for_each os (λ '(o, s), insert_origin cluster o s) c = (Ok (), c1) →
  patterns (db c1) = patterns (db c) ∧
  pattern_instances (db c1) = pattern_instances (db c) ∧
  commits (db c1) = commits (db c) ∧ clusters (db c1) = clusters (db c) ∧
  origin_rows (db c1) = origin_rows (db c) ++ (origin_row_of cluster <$> os) ∧
  repos (db c1) = repos (db c) ∧
  commits_seq c1 = commits_seq c ∧ clusters_seq c1 = clusters_seq c.
Proof.
  revert c. induction os as [|[o s] os IH]; intros c.
  { intros [= <-]. simpl. by rewrite app_nil_r. }
  rewrite for_each_cons. intros ([] & c' & Hins & Hrest)%bind_Ok_inv.
  apply statement_Ok_inv in Hins. injection Hins as <-.
  apply IH in Hrest as (-> & -> & -> & -> & -> & -> & -> & ->). simpl.
  by rewrite <-(assoc (++)).
Qed.

Lemma clusters_loop_Ok commit cs c c1 :
  for_each cs (λ cl,
    cluster_id ← insert_cluster commit (value cl) (match_weight cl);
    for_each (origins cl) (λ '(o, s), insert_origin cluster_id o s)) c = (Ok (), c1) →
  patterns (db c1) = patterns (db c) ∧
  pattern_instances (db c1) = pattern_instances (db c) ∧
  commits (db c1) = commits (db c) ∧
  clusters (db c1) = clusters (db c) ++ cluster_rows (clusters_seq c) commit cs ∧
  origin_rows (db c1) = origin_rows (db c) ++ origin_rows_of (clusters_seq c) cs ∧
  repos (db c1) = repos (db c) ∧
  commits_seq c1 = commits_seq c.
Proof.
  revert c. induction cs as [|cl cs IH]; intros c.
  { intros [= <-]. simpl. by rewrite !app_nil_r. }
  rewrite for_each_cons. intros ([] & c' & Hbody & Hrest)%bind_Ok_inv.
  apply bind_Ok_inv in Hbody as (id & c0 & Hins & Horigins).
  apply statement_Ok_inv in Hins. injection Hins as <- <-.
  apply origins_loop_Ok in Horigins as (Hp & Hi & Hc & Hcl & Ho & Hr & Hcs & Hcls).
  apply IH in Hrest as (-> & -> & -> & -> & -> & -> & ->).
  rewrite Hp, Hi, Hc, Hcl, Ho, Hr, Hcs, Hcls. simpl.
  by rewrite <-!(assoc (++)).
Qed.

Lemma persist_result_Ok repo_info repo_id result c commit_id c1 :
  persist_result repo_info repo_id result c = (Ok commit_id, c1) →
  commit_id = commits_seq c ∧
  db c1 =
    mkTables (patterns (db c)) (pattern_instances (db c))
      (commits (db c) ++ [mkCommitRow commit_id repo_id (hash repo_info)])
      (clusters (db c) ++ cluster_rows (clusters_seq c) commit_id (clones result))
      (origin_rows (db c) ++ origin_rows_of (clusters_seq c) (clones result))
      (alter (λ _, "done") repo_id (repos (db c))).
Proof.
  unfold persist_result.
  intros (id & c' & Hcommit & Hrest)%bind_Ok_inv.
  apply statement_Ok_inv in Hcommit. injection Hcommit as <- <-.
  apply bind_Ok_inv in Hrest as ([] & c2 & Hloop & Hrest).
  apply bind_Ok_inv in Hrest as ([] & c3 & Hstatus & [= <- <-]).
  apply statement_Ok_inv in Hstatus. injection Hstatus as <-.
  apply clusters_loop_Ok in Hloop as (Hp & Hi & Hc & Hcl & Ho & Hr & Hcs).
  split; [done|]. simpl. by rewrite Hp, Hi, Hc, Hcl, Ho, Hr.
Qed.

Lemma persist_result_PG_only repo_info repo_id result :
  raises_PG_only (persist_result repo_info repo_id result).
Proof.
  unfold persist_result.
  apply bind_PG_only; [apply statement_PG_only|]. intros commit_id.
  apply bind_PG_only.
  { apply for_each_PG_only. intros cl.
    apply bind_PG_only; [apply statement_PG_only|]. intros cluster_id.
    apply for_each_PG_only. intros [o s]. apply statement_PG_only. }
  intros _. apply bind_PG_only; [apply statement_PG_only|].
  intros _. apply ret_PG_only.
Qed.

Lemma extract_patterns_PG_only commit_id modules :
  raises_PG_only (_extract_patterns commit_id modules).
Proof.
  unfold _extract_patterns. apply for_each_PG_only. intros n.
  apply bind_PG_only; [|intros i; apply statement_PG_only].
  unfold _get_pattern_id. apply bind_PG_only; [apply statement_PG_only|].
  intros [i|]; [apply ret_PG_only | apply statement_PG_only].
Qed.

(** The three ways through [try: first; second / except PG_Error /
    finally: close]. *)
Lemma two_blocks_first {A} (first : M A) (second : A → M ()) handler c ex c1 :
  first c = (Raise (PGError ex), c1) →
  try_finally
    (try_except_PG (a ← first; second a;; mret ()) handler) close c =
  try_finally (handler ex) close c1.
Proof.
  intros Hfirst. unfold try_finally, try_except_PG.
  by rewrite (bind_Raise _ _ _ _ _ Hfirst).
Qed.

Lemma two_blocks_second {A} (first : M A) (second : A → M ()) handler c a c1 ex c2 :
  first c = (Ok a, c1) → second a c1 = (Raise (PGError ex), c2) →
  try_finally
    (try_except_PG (a ← first; second a;; mret ()) handler) close c =
  try_finally (handler ex) close c2.
Proof.
  intros Hfirst Hsecond. unfold try_finally, try_except_PG.
  by rewrite (bind_Ok _ _ _ _ _ Hfirst), (bind_Raise _ _ _ _ _ Hsecond).
Qed.

Lemma two_blocks_Ok {A} (first : M A) (second : A → M ()) handler c a c1 c2 :
  first c = (Ok a, c1) → second a c1 = (Ok (), c2) →
  try_finally
    (try_except_PG (a ← first; second a;; mret ()) handler) close c =
  close c2.
Proof.
  intros Hfirst Hsecond. unfold try_finally, try_except_PG.
  by rewrite (bind_Ok _ _ _ _ _ Hfirst), (bind_Ok _ _ _ _ _ Hsecond).
Qed.

(** C10.  The first block of [analyze_repo] is all or nothing.  When it
    raises, the exception is a database error, the tables are as they were
    before the block (no commit, cluster or origin row, status as before),
    pattern extraction is not started, and what remains is the error
    handler, then [close].  When it returns, the commit row, the cluster
    and origin rows of every clone and the status "done" are in the tables;
    pattern extraction then runs in a block of its own: when that one
    raises, the tables are as the first block left them, and the handler
    runs on them. *)
Theorem persist_result_atomic (repo_info : RepoInfo) (repo_id : Z) (algorithm : string)
    (result : DetectionResult) (c : conn) :
  clone_or_pull repo_info = true → modules_in_dir repo_info ≠ [] →
  run_single_repo (modules_in_dir repo_info) algorithm = inr result →
  match transaction (persist_result repo_info repo_id result) c with
  | (Raise e, c1) =>
      ∃ ex, e = PGError ex ∧ db c1 = db c ∧
        analyze_repo repo_info repo_id algorithm c =
          try_finally (handle_pg_error ex repo_id) close c1
  | (Ok commit_id, c1) =>
      db c1 =
        mkTables (patterns (db c)) (pattern_instances (db c))
          (commits (db c) ++ [mkCommitRow commit_id repo_id (hash repo_info)])
          (clusters (db c) ++ cluster_rows (clusters_seq c) commit_id (clones result))
          (origin_rows (db c) ++ origin_rows_of (clusters_seq c) (clones result))
          (alter (λ _, "done") repo_id (repos (db c))) ∧
      match transaction (_extract_patterns commit_id (modules_in_dir repo_info)) c1 with
      | (Raise e, c2) =>
          ∃ ex, e = PGError ex ∧ db c2 = db c1 ∧
            analyze_repo repo_info repo_id algorithm c =
              try_finally (handle_pg_error ex repo_id) close c2
      | (Ok _, c2) =>
          analyze_repo repo_info repo_id algorithm c = close c2
      end
  end.
Proof.
  intros Hclone Hmods Hrun. rewrite analyze_repo_run, Hrun by done.
  destruct (transaction (persist_result _ _ _) c) as [[commit_id|e] c1] eqn:Hfirst.
  - split.
    { apply transaction_Ok_inv in Hfirst as (c0 & Hbody & _ & ->).
      by apply persist_result_Ok in Hbody as [_ Hdb]. }
    destruct (transaction (_extract_patterns _ _) c1) as [[[]|e] c2] eqn:Hsecond.
    + by erewrite two_blocks_Ok.
    + pose proof (transaction_PG_only _ (extract_patterns_PG_only _ _) _ _ _ Hsecond)
        as [ex ->].
      exists ex. split_and!; [done | by eapply transaction_rollback |].
      by erewrite two_blocks_second.
  - pose proof (transaction_PG_only _ (persist_result_PG_only _ _ _) _ _ _ Hfirst)
      as [ex ->].
    exists ex. split_and!; [done | by eapply transaction_rollback |].
    by erewrite two_blocks_first.
Qed.

(** *** Reading results back *)

(** Code that only reads: whatever it returns or raises, the tables, the
    counters and the closed flag are as before. *)
Definition reads_only {A} (m : M A) : Prop :=
  ∀ c r c1, m c = (r, c1) →
    db c1 = db c ∧ patterns_seq c1 = patterns_seq c ∧ commits_seq c1 = commits_seq c ∧
    clusters_seq c1 = clusters_seq c ∧ closed c1 = closed c ∧ issued c ≤ issued c1.

Lemma ret_reads_only {A} (a : A) : reads_only (mret a).
Proof. intros c r c1 [= _ <-]. by split_and!. Qed.

Lemma query_reads_only {A} (q : conn → A) : reads_only (statement (λ c, (q c, c))).
Proof.
  intros c r c1. unfold statement. destruct (fails (issued c)).
  - intros [= _ <-]. simpl. split_and!; try done. lia.
  - intros [= _ <-]. simpl. split_and!; try done. lia.
Qed.

Lemma bind_reads_only {A B} (m : M A) (k : A → M B) :
  reads_only m → (∀ a, reads_only (k a)) → reads_only (m ≫= k).
Proof.
  intros Hm Hk c r c1. rewrite bind_run.
  destruct (m c) as [[a|e] c'] eqn:Hmc.
  - intros Hka. destruct (Hm _ _ _ Hmc) as (? & ? & ? & ? & ? & ?).
    destruct (Hk _ _ _ _ Hka) as (? & ? & ? & ? & ? & ?).
    split_and!; [congruence.. | lia].
  - intros [= <- <-]. by eapply Hm.
Qed.

Lemma collect_reads_only {A B} (l : list A) (body : A → M B) :
  (∀ x, reads_only (body x)) → reads_only (collect l body).
Proof.
  intros Hbody. induction l as [|x l IH]; simpl.
  - apply ret_reads_only.
  - apply bind_reads_only; [done|]. intros y.
    apply bind_reads_only; [done|]. intros ys. apply ret_reads_only.
Qed.

Lemma collect_PG_only {A B} (l : list A) (body : A → M B) :
  (∀ x, raises_PG_only (body x)) → raises_PG_only (collect l body).
Proof.
  intros Hbody. induction l as [|x l IH]; simpl.
  - apply ret_PG_only.
  - apply bind_PG_only; [done|]. intros y.
    apply bind_PG_only; [done|]. intros ys. apply ret_PG_only.
Qed.

Lemma find_repo_results_reads_only repo_id : reads_only (find_repo_results repo_id).
Proof.
  unfold find_repo_results. apply bind_reads_only; [apply query_reads_only|].
  intros [commit|]; [|apply ret_reads_only].
  apply bind_reads_only; [apply query_reads_only|]. intros rows.
  apply bind_reads_only; [|intros; apply ret_reads_only].
  apply collect_reads_only. intros cl.
  apply bind_reads_only; [apply query_reads_only | intros; apply ret_reads_only].
Qed.

Lemma find_repo_results_PG_only repo_id : raises_PG_only (find_repo_results repo_id).
Proof.
  unfold find_repo_results. apply bind_PG_only; [apply statement_PG_only|].
  intros [commit|]; [|apply ret_PG_only].
  apply bind_PG_only; [apply statement_PG_only|]. intros rows.
  apply bind_PG_only; [|intros; apply ret_PG_only].
  apply collect_PG_only. intros cl.
  apply bind_PG_only; [apply statement_PG_only | intros; apply ret_PG_only].
Qed.

(** X3.  [_get_repo_summary] only reads: whatever the database refuses,
    the tables and counters are as before; the only exceptions are database
    errors; and a [DetectionResult] is returned only for a repository whose
    status is "done" and that has a commit. *)
Theorem get_repo_summary_reads_only (repo : option repo_dict) (c : conn) :
  let '(r, c1) := _get_repo_summary repo c in
  db c1 = db c ∧ patterns_seq c1 = patterns_seq c ∧ commits_seq c1 = commits_seq c ∧
  clusters_seq c1 = clusters_seq c ∧ closed c1 = closed c ∧
  match r with
  | Raise e => ∃ ex, e = PGError ex
  | Ok (inl message) => True
  | Ok (inr res) =>
      ∃ d, repo = Some d ∧ status_name d = "done" ∧
           ∃ row, row ∈ commits (db c) ∧ commit_repo row = repo_dict_id d
  end.
Proof.
  destruct (_get_repo_summary repo c) as [r c1] eqn:Hrun.
  assert (reads_only (_get_repo_summary repo)) as Hro.
  { unfold _get_repo_summary. destruct repo as [d|]; [|apply ret_reads_only].
    repeat case_decide; try apply ret_reads_only. apply find_repo_results_reads_only. }
  assert (raises_PG_only (_get_repo_summary repo)) as Hpg.
  { unfold _get_repo_summary. destruct repo as [d|]; [|apply ret_PG_only].
    repeat case_decide; try apply ret_PG_only. apply find_repo_results_PG_only. }
  destruct (Hro _ _ _ Hrun) as (? & ? & ? & ? & ? & _).
  split_and!; try done.
  destruct r as [[message|res]|e]; [done | | by eapply Hpg].
  - unfold _get_repo_summary in Hrun.
    destruct repo as [d|]; [|done]. repeat case_decide; try done.
    exists d. split_and!; [done | done |].
    unfold find_repo_results in Hrun.
    apply bind_Ok_inv in Hrun as (commit & c' & Hsel & Hrest).
    apply statement_Ok_inv in Hsel. injection Hsel as Hsel _.
    destruct commit as [commit|]; [|done].
    destruct (most_recent _) as [row|] eqn:Hrow; [|done].
    assert (∀ l b, foldl (λ best r,
                match best with
                | None => Some r
                | Some b => if decide (analyzed_at (commit_id b) < analyzed_at (commit_id r))%Z
                            then Some r else Some b
                end) b l = Some row → b = Some row ∨ row ∈ l) as Hfold.
    { induction l as [|x l IH]; simpl; intros b Hb; [by left|].
      apply IH in Hb as [Hb|Hb]; [|right; by right].
      destruct b as [b|]; [case_decide|]; simplify_eq; eauto using list_elem_of_here. }
    apply Hfold in Hrow as [|Hrow]; [done|].
    apply list_elem_of_filter in Hrow as [Hrepo Hrow]. by exists row.
Qed.

Lemma dict_set_fresh {K V} `{EqDecision K} (d : list (K * V)) k v :
  k ∉ d.*1 → dict_set d k v = d ++ [(k, v)].
Proof.
  induction d as [|[k' v'] d IH]; simpl; intros Hk; [done|].
  apply not_elem_of_cons in Hk as [Hne Hk].
  rewrite decide_False by done. by rewrite IH.
Qed.

Lemma origins_dict_items (cluster : Z) (items : list (NodeOrigin * similarity)) :
  NoDup items.*1 → origins_dict (origin_row_of cluster <$> items) = items.
Proof.
  unfold origins_dict.
  assert (∀ acc, NoDup (acc ++ items).*1 →
    foldl (λ origins o,
             dict_set origins
               (mkNodeOrigin (origin_file o) (origin_line o) (origin_col_offset o))
               (origin_similarity o)) acc (origin_row_of cluster <$> items)
    = acc ++ items) as Hgen.
  { induction items as [|[[f l co] v] items IH]; intros acc Hnd; simpl.
    - by rewrite app_nil_r.
    - rewrite dict_set_fresh.
      + rewrite IH; rewrite <-(assoc (++)); done.
      + rewrite fmap_app in Hnd. apply NoDup_app in Hnd as (_ & Hdisj & _).
        intros Hin. apply (Hdisj _ Hin). simpl. left. }
  intros Hnd. by apply (Hgen []).
Qed.

Lemma origin_rows_of_ge seq cs :
  Forall (λ r, (seq ≤ origin_cluster r)%Z) (origin_rows_of seq cs).
Proof.
  revert seq. induction cs as [|cl cs IH]; intros seq; simpl; [done|].
  apply Forall_app. split.
  - apply Forall_fmap, Forall_forall. intros os _. simpl. lia.
  - eapply Forall_impl; [apply IH|]. simpl. intros; lia.
Qed.

Lemma most_recent_elem rows b x :
  foldl (λ best r,
           match best with
           | None => Some r
           | Some b =>
               if decide (analyzed_at (commit_id b) < analyzed_at (commit_id r))%Z
               then Some r else Some b
           end) b rows = Some x →
  b = Some x ∨ x ∈ rows.
Proof.
  revert b. induction rows as [|r rows IH]; simpl; intros b Hb; [by left|].
  apply IH in Hb as [Hb|Hb]; [|right; by right].
  destruct b as [b|]; [case_decide|]; simplify_eq; eauto using list_elem_of_here.
Qed.

Lemma most_recent_snoc rows x :
  (∀ r, r ∈ rows → (analyzed_at (commit_id r) < analyzed_at (commit_id x))%Z) →
  most_recent (rows ++ [x]) = Some x.
Proof.
  intros Hlt. unfold most_recent. rewrite foldl_app. simpl.
  destruct (foldl _ None rows) as [b|] eqn:Hb; [|done].
  apply most_recent_elem in Hb as [|Hb]; [done|].
  by rewrite decide_True by by apply Hlt.
Qed.

Lemma collect_cons {A B} (x : A) l (body : A → M B) :
  collect (x :: l) body = (y ← body x; ys ← collect l body; mret (y :: ys)).
Proof. done. Qed.

(** Reading the clusters of a commit back, one [select_origins] each. *)
Lemma collect_clusters commit cs seq pre c :
  quiet c →
  origin_rows (db c) = pre ++ origin_rows_of seq cs →
  Forall (λ r, (origin_cluster r < seq)%Z) pre →
  Forall (λ cl, NoDup (origins cl).*1) cs →
  ∃ c1,
    collect (cluster_rows seq commit cs) (λ c,
      os ← select_origins (cluster_id c);
      mret (mkDetectedClone (cluster_value c) (cluster_weight c) (origins_dict os))) c
    = (Ok cs, c1) ∧ db c1 = db c ∧ quiet c1.
Proof.
  revert seq pre c. induction cs as [|cl cs IH]; intros seq pre c Hq Hrows Hpre Hnd.
  { exists c. by split_and!. }
  apply Forall_cons in Hnd as [Hcl Hnd]. simpl in Hrows.
  destruct (IH (seq + 1)%Z (pre ++ (origin_row_of seq <$> origins cl)) (tick c))
    as (c1 & Hrest & Hdb & Hq1).
  - by apply quiet_tick.
  - simpl. by rewrite Hrows, <-(assoc (++)).
  - apply Forall_app. split.
    + eapply Forall_impl; [done|]. simpl. intros; lia.
    + apply Forall_fmap, Forall_forall. intros os _. simpl. lia.
  - done.
  - exists c1. split_and!; [|done|done].
    assert ((os ← select_origins seq;
             mret (mkDetectedClone (value cl) (match_weight cl) (origins_dict os))) c
            = (Ok cl, tick c)) as Hbody.
    { rewrite bind_run. unfold select_origins. rewrite statement_quiet by done.
      simpl. rewrite Hrows, !filter_app.
      rewrite (filter_none _ pre), (filter_all _ (origin_row_of seq <$> origins cl)),
        (filter_none _ (origin_rows_of (seq + 1) cs)).
      + simpl. rewrite app_nil_r, origins_dict_items by done. by destruct cl.
      + intros r Hr. pose proof (origin_rows_of_ge (seq + 1) cs) as Hge.
        rewrite Forall_forall in Hge. specialize (Hge _ Hr). simpl in Hge. lia.
      + intros r (os & -> & _)%list_elem_of_fmap. done.
      + intros r Hr. rewrite Forall_forall in Hpre. specialize (Hpre _ Hr).
        simpl in Hpre. lia. }
    change (cluster_rows seq commit (cl :: cs))
      with (mkClusterRow seq commit (value cl) (match_weight cl)
            :: cluster_rows (seq + 1) commit cs).
    rewrite collect_cons. cbv beta. simpl cluster_id. simpl cluster_value.
    simpl cluster_weight.
    by rewrite (bind_Ok _ _ _ _ _ Hbody), (bind_Ok _ _ _ _ _ Hrest).
Qed.

Lemma cluster_rows_commit seq commit cs :
  Forall (λ r, cluster_commit r = commit) (cluster_rows seq commit cs).
Proof.
  revert seq. induction cs as [|cl cs IH]; intros seq; simpl; [done|].
  apply Forall_cons. split; [done | apply IH].
Qed.

(** X4.  What the first block of [analyze_repo] stores, [find_repo_results]
    reads back: when the new commit is the repository's most recent one,
    the clusters and origins already in the tables belong to earlier
    commits and clusters, and no clone lists an origin twice, the result
    read back is the result stored. *)
Theorem find_repo_results_after_persist (repo_info : RepoInfo) (repo_id commit : Z)
    (result : DetectionResult) (c c1 : conn) :
  Forall (λ r, (cluster_commit r < commits_seq c)%Z) (clusters (db c)) →
  Forall (λ r, (origin_cluster r < clusters_seq c)%Z) (origin_rows (db c)) →
  (∀ r, r ∈ commits (db c) → commit_repo r = repo_id →
        (analyzed_at (commit_id r) < analyzed_at (commits_seq c))%Z) →
  Forall (λ cl, NoDup (origins cl).*1) (clones result) →
  transaction (persist_result repo_info repo_id result) c = (Ok commit, c1) →
  quiet c1 →
  ∃ c2, find_repo_results repo_id c1 = (Ok (inr result), c2) ∧ db c2 = db c1.
Proof.
  intros Hclusters Horigins Hrecent Hdicts Hpersist Hq.
  apply transaction_Ok_inv in Hpersist as (c0 & Hbody & _ & ->).
  apply persist_result_Ok in Hbody as [-> Hdb].
  unfold find_repo_results. rewrite bind_run. unfold select_latest_commit.
  rewrite statement_quiet by done. simpl. rewrite Hdb. simpl.
  rewrite filter_app, filter_cons_True, filter_nil by done.
  rewrite most_recent_snoc.
  2:{ intros r [Hrepo Hr]%list_elem_of_filter. simpl. by apply Hrecent. }
  simpl. rewrite bind_run. unfold select_clusters.
  rewrite statement_quiet by (by apply quiet_tick). simpl. rewrite Hdb. simpl.
  rewrite filter_app, filter_none, filter_all; simpl.
  - destruct (collect_clusters (commits_seq c) (clones result) (clusters_seq c)
                (origin_rows (db c)) (tick (tick (tick c0)))) as (c2 & Hcollect & Hdb2 & _).
    + by do 2 apply quiet_tick.
    + simpl. by rewrite Hdb.
    + done.
    + done.
    + rewrite bind_run, Hcollect. exists c2. split; [by destruct result | by rewrite Hdb2].
  - intros r Hr. pose proof (cluster_rows_commit (clusters_seq c) (commits_seq c) (clones result)) as Hall.
    rewrite Forall_forall in Hall. by apply Hall.
  - intros r Hr. rewrite Forall_forall in Hclusters. specialize (Hclusters _ Hr). lia.
Qed.

Lemma most_recent_nil_iff rows : most_recent rows = None ↔ rows = [].
Proof.
  split; [|by intros ->]. destruct rows as [|r rows]; [done|].
  unfold most_recent. simpl. intros Hnone.
  assert (∀ l b, foldl (λ best r,
            match best with
            | None => Some r
            | Some b =>
                if decide (analyzed_at (commit_id b) < analyzed_at (commit_id r))%Z
                then Some r else Some b
            end) (Some b) l ≠ None) as Hsome.
  { induction l as [|x l IH]; intros b; simpl; [done|]. case_decide; apply IH. }
  by apply Hsome in Hnone.
Qed.

(** X5.  When its first statement is not refused, [find_repo_results]
    answers "No commit has been analyzed yet for this repository" exactly
    when [commits] has no row of the repository; it has then issued that
    one statement only. *)
Theorem find_repo_results_no_commit (repo_id : Z) (c : conn) :
  fails (issued c) = None →
  (∀ r, r ∈ commits (db c) → commit_repo r ≠ repo_id) ↔
  find_repo_results repo_id c =
    (Ok (inl "No commit has been analyzed yet for this repository"), tick c).
Proof.
  intros Hfails. unfold find_repo_results, select_latest_commit.
  rewrite bind_run. unfold statement. rewrite Hfails. simpl.
  destruct (most_recent _) as [row|] eqn:Hrow; simpl.
  - split; [|intros Hrun].
    + intros Hnone. apply most_recent_elem in Hrow as [|Hrow]; [done|].
      apply list_elem_of_filter in Hrow as [Hrepo Hrow]. by destruct (Hnone row).
    + exfalso. revert Hrun. rewrite bind_run.
      destruct (select_clusters _ _) as [[rows|e] c1]; [|done].
      rewrite bind_run. by destruct (collect _ _ _) as [[clones|e] c2].
  - split; [done|]. intros _ r Hr Hrepo.
    apply most_recent_nil_iff in Hrow.
    assert (r ∈ filter (λ r, commit_repo r = repo_id) (commits (db c))) as Hin
      by by apply list_elem_of_filter.
    rewrite Hrow in Hin. by apply not_elem_of_nil in Hin.
Qed.

(** X6.  The two ways [analyze_repo] ends without analysing.  With no
    Python module in the repository it issues no statement: the status of
    the repository stays what it was.  When cloning fails it sets the
    status to "err_clone" and writes nothing else.  Both close the
    connection. *)
Theorem analyze_repo_without_analysis (repo_info : RepoInfo) (repo_id : Z)
    (algorithm : string) (c : conn) :
  (clone_or_pull repo_info = true → modules_in_dir repo_info = [] →
   analyze_repo repo_info repo_id algorithm c =
     (Ok (), mkConn (db c) (patterns_seq c) (commits_seq c) (clusters_seq c) (issued c) true)) ∧
  (clone_or_pull repo_info = false → fails (issued c) = None →
   analyze_repo repo_info repo_id algorithm c =
     (Ok (),
      mkConn (mkTables (patterns (db c)) (pattern_instances (db c)) (commits (db c))
                (clusters (db c)) (origin_rows (db c))
                (alter (λ _, "err_clone") repo_id (repos (db c))))
             (patterns_seq c) (commits_seq c) (clusters_seq c) (S (issued c)) true)).
Proof.
  split.
  - intros Hclone Hmods. unfold analyze_repo. rewrite Hclone, Hmods. done.
  - intros Hclone Hfails. unfold analyze_repo. rewrite Hclone.
    unfold try_finally, try_except_PG, update_status, statement. by rewrite Hfails.
Qed.

(** *** [analyze_repo], all the way *)

(** Code that runs through when the database refuses nothing. *)
Definition runs {A} (m : M A) : Prop :=
  ∀ c, quiet c → ∃ a c1, m c = (Ok a, c1) ∧ quiet c1.

Lemma ret_runs {A} (a : A) : runs (mret a).
Proof. intros c Hq. by exists a, c. Qed.

Lemma bind_runs {A B} (m : M A) (k : A → M B) :
  runs m → (∀ a, runs (k a)) → runs (m ≫= k).
Proof.
  intros Hm Hk c Hq. destruct (Hm c Hq) as (a & c1 & Hmc & Hq1).
  destruct (Hk a c1 Hq1) as (b & c2 & Hkc & Hq2).
  exists b, c2. by rewrite (bind_Ok _ _ _ _ _ Hmc).
Qed.

Lemma for_each_runs {A} (l : list A) (body : A → M ()) :
  (∀ x, runs (body x)) → runs (for_each l body).
Proof.
  intros Hbody. induction l as [|x l IH]; [apply (ret_runs ())|].
  rewrite for_each_cons. apply bind_runs; [done | by intros _].
Qed.

Lemma statement_runs {A} (run : conn → A * conn) :
  (∀ c, issued (run c).2 = issued c) → runs (statement run).
Proof.
  intros Hrun c Hq. rewrite statement_quiet by done.
  destruct (run (tick c)) as [a c1] eqn:Hc1. exists a, c1. split; [done|].
  intros n Hn. apply Hq. specialize (Hrun (tick c)). rewrite Hc1 in Hrun.
  simpl in Hrun. lia.
Qed.

Lemma transaction_runs {A} (body : M A) : runs body → runs (transaction body).
Proof.
  intros Hbody c Hq. destruct (Hbody c Hq) as (a & c1 & Hrun & Hq1).
  exists a, (tick c1). split; [by apply transaction_quiet | by apply quiet_tick].
Qed.

Lemma persist_result_runs repo_info repo_id result :
  runs (persist_result repo_info repo_id result).
Proof.
  unfold persist_result.
  apply bind_runs; [by apply statement_runs|]. intros commit_id.
  apply bind_runs.
  { apply for_each_runs. intros cl.
    apply bind_runs; [by apply statement_runs|]. intros cluster_id.
    apply for_each_runs. intros [o s]. by apply statement_runs. }
  intros _. apply bind_runs; [by apply statement_runs|].
  intros _. apply ret_runs.
Qed.

(** Code that leaves a component of the connection as it is, whatever
    happens. *)
Definition keeps {A X} (f : conn → X) (m : M A) : Prop :=
  ∀ c r c1, m c = (r, c1) → f c1 = f c.

Lemma ret_keeps {A X} (f : conn → X) (a : A) : keeps f (mret a).
Proof. by intros c r c1 [= _ <-]. Qed.

Lemma bind_keeps {A B X} (f : conn → X) (m : M A) (k : A → M B) :
  keeps f m → (∀ a, keeps f (k a)) → keeps f (m ≫= k).
Proof.
  intros Hm Hk c r c2. rewrite bind_run.
  destruct (m c) as [[a|e] c1] eqn:Hmc.
  - intros Hkc. rewrite (Hk _ _ _ _ Hkc). by eapply Hm.
  - intros [= _ <-]. by eapply Hm.
Qed.

Lemma for_each_keeps {A X} (f : conn → X) (l : list A) (body : A → M ()) :
  (∀ x, keeps f (body x)) → keeps f (for_each l body).
Proof.
  intros Hbody. induction l as [|x l IH]; [apply (ret_keeps f ())|].
  rewrite for_each_cons. apply bind_keeps; [done | by intros _].
Qed.

Lemma statement_keeps {A X} (f : conn → X) (run : conn → A * conn) :
  (∀ c, f (tick c) = f c) → (∀ c, f (run c).2 = f c) → keeps f (statement run).
Proof.
  intros Htick Hrun c r c1. unfold statement. destruct (fails (issued c)).
  - intros [= _ <-]. apply Htick.
  - specialize (Hrun (tick c)). destruct (run (tick c)) as [a c'].
    intros [= _ <-]. simpl in Hrun. by rewrite Hrun.
Qed.

Lemma persist_result_keeps_patterns repo_info repo_id result :
  keeps (λ c, (patterns (db c), patterns_seq c)) (persist_result repo_info repo_id result).
Proof.
  unfold persist_result.
  apply bind_keeps; [by apply statement_keeps|]. intros commit_id.
  apply bind_keeps.
  { apply for_each_keeps. intros cl.
    apply bind_keeps; [by apply statement_keeps|]. intros cluster_id.
    apply for_each_keeps. intros [o s]. by apply statement_keeps. }
  intros _. apply bind_keeps; [by apply statement_keeps|].
  intros _. apply ret_keeps.
Qed.

(** X7.  A run in which the database refuses nothing: [analyze_repo]
    returns normally with the connection closed; the tables then hold the
    new commit, the cluster and origin rows of every clone, the status
    "done", and one pattern instance per node of the modules, each with the
    id of the pattern that has the node's hash: for every node there is
    such a pattern afterwards, interned by the run when it was not there,
    and the instance row carries its id.  [patterns] still has one row per
    hash and keeps the rows it had. *)
Theorem analyze_repo_success (repo_info : RepoInfo) (repo_id : Z) (algorithm : string)
    (result : DetectionResult) (c : conn) :
  clone_or_pull repo_info = true → modules_in_dir repo_info ≠ [] →
  run_single_repo (modules_in_dir repo_info) algorithm = inr result →
  quiet c → store_ok c →
  ∃ c1,
    analyze_repo repo_info repo_id algorithm c = (Ok (), c1) ∧
    closed c1 = true ∧ store_ok c1 ∧
    commits (db c1) = commits (db c) ++ [mkCommitRow (commits_seq c) repo_id (hash repo_info)] ∧
    clusters (db c1) =
      clusters (db c) ++ cluster_rows (clusters_seq c) (commits_seq c) (clones result) ∧
    origin_rows (db c1) =
      origin_rows (db c) ++ origin_rows_of (clusters_seq c) (clones result) ∧
    repos (db c1) = alter (λ _, "done") repo_id (repos (db c)) ∧
    pattern_instances (db c1) =
      pattern_instances (db c) ++
      (instance_of (patterns (db c1)) (commits_seq c) <$> concat (modules_in_dir repo_info)) ∧
    (∀ n, n ∈ concat (modules_in_dir repo_info) →
       ∃ r, r ∈ patterns (db c1) ∧ pattern_hash r = _get_md5 (type2_pattern n) ∧
            instance_of (patterns (db c1)) (commits_seq c) n =
              mkInstanceRow (Some (pattern_id r)) (commits_seq c)
                (file (origin n)) (line (origin n)) (col_offset (origin n))) ∧
    ∃ new, patterns (db c1) = patterns (db c) ++ new.
Proof.
  intros Hclone Hmods Hrun Hq Hok. rewrite analyze_repo_run, Hrun by done.
  destruct (persist_result_runs repo_info repo_id result c Hq) as (commit & c0 & Hpersist & Hq0).
  pose proof (persist_result_keeps_patterns _ _ _ _ _ _ Hpersist) as Hkeep.
  simpl in Hkeep. injection Hkeep as Hpat Hseq.
  pose proof (persist_result_Ok _ _ _ _ _ _ Hpersist) as [-> Hdb].
  pose proof (transaction_quiet _ _ _ _ Hpersist Hq0) as Hfirst.
  assert (store_ok (tick c0)) as Hok0.
  { unfold store_ok in *. simpl. by rewrite Hpat, Hseq. }
  destruct (extract_loop (commits_seq c) (concat (modules_in_dir repo_info)) (tick c0)
              (quiet_tick _ Hq0) Hok0)
    as (c2 & Hloop & Hq2 & Hok2 & [new Hnew] & Hinst & Hsome & Hco & Hcl & Hor & Hre).
  assert (_extract_patterns (commits_seq c) (modules_in_dir repo_info) (tick c0) = (Ok (), c2))
    as Hextract by done.
  pose proof (transaction_quiet _ _ _ _ Hextract Hq2) as Hsecond.
  erewrite two_blocks_Ok by done.
  eexists. split; [done|]. simpl in *.
  rewrite Hco, Hcl, Hor, Hre, Hinst, Hdb. simpl.
  split_and!; try done.
  - intros n Hn. destruct (Hsome n Hn) as [i Hi].
    destruct (pattern_with_hash_Some _ _ _ Hi) as (r & Hr & Hhash & <-).
    exists r. split_and!; [done | done |]. unfold instance_of. by rewrite Hi.
  - exists new. by rewrite Hnew, Hpat.
Qed.

(** *** What [analyze_repo] keeps, whatever the database refuses *)

(** Code that keeps [patterns] in order: one row per hash, ids below the
    serial counter, the counter never going back, no row changed or
    removed. *)
Definition keeps_ok {A} (m : M A) : Prop :=
  ∀ c r c1, store_ok c → m c = (r, c1) →
    store_ok c1 ∧ (patterns_seq c ≤ patterns_seq c1)%Z ∧
    patterns (db c) `prefix_of` patterns (db c1).

Lemma ret_keeps_ok {A} (a : A) : keeps_ok (mret a).
Proof. intros c r c1 Hok [= _ <-]. by split_and!. Qed.

Lemma bind_keeps_ok {A B} (m : M A) (k : A → M B) :
  keeps_ok m → (∀ a, keeps_ok (k a)) → keeps_ok (m ≫= k).
Proof.
  intros Hm Hk c r c2 Hok. rewrite bind_run.
  destruct (m c) as [[a|e] c1] eqn:Hmc.
  - intros Hkc. destruct (Hm _ _ _ Hok Hmc) as (Hok1 & Hseq1 & Hpre1).
    destruct (Hk _ _ _ _ Hok1 Hkc) as (Hok2 & Hseq2 & Hpre2).
    split_and!; [done | lia | by etrans].
  - intros [= _ <-]. by eapply Hm.
Qed.

Lemma for_each_keeps_ok {A} (l : list A) (body : A → M ()) :
  (∀ x, keeps_ok (body x)) → keeps_ok (for_each l body).
Proof.
  intros Hbody. induction l as [|x l IH]; [apply (ret_keeps_ok ())|].
  rewrite for_each_cons. apply bind_keeps_ok; [done | by intros _].
Qed.

Lemma statement_keeps_ok {A} (run : conn → A * conn) :
  (∀ c, patterns (db (run c).2) = patterns (db c) ∧
        patterns_seq (run c).2 = patterns_seq c) →
  keeps_ok (statement run).
Proof.
  intros Hrun c r c1 Hok. unfold statement. destruct (fails (issued c)).
  - intros [= _ <-]. by split_and!.
  - destruct (Hrun (tick c)) as [Hpat Hseq]. destruct (run (tick c)) as [a c'].
    intros [= _ <-]. simpl in *. unfold store_ok. rewrite Hpat, Hseq.
    destruct Hok as (Hh & Hi & Hlt). split_and!; [done | done | done | lia | done].
Qed.

Lemma insert_pattern_keeps_ok dump h w cl : keeps_ok (insert_pattern dump h w cl).
Proof.
  intros c r c1 (Hh & Hi & Hseq). unfold insert_pattern, statement.
  destruct (fails (issued c)).
  { intros [= _ <-]. by split_and!. }
  simpl. destruct (decide (h ∈ _)) as [Hin|Hnin]; intros [= _ <-];
    unfold store_ok; simpl.
  - split_and!; [done | done | | lia | done].
    eapply Forall_impl; [done|]. simpl. intros; lia.
  - split_and!; [| | | lia | by apply prefix_app_r].
    + rewrite fmap_app. apply NoDup_app. split_and!; [done| |apply NoDup_singleton].
      intros h' Hin ->%list_elem_of_singleton. done.
    + rewrite fmap_app. apply NoDup_app. split_and!; [done| |apply NoDup_singleton].
      intros i Hin ->%list_elem_of_singleton.
      apply list_elem_of_fmap in Hin as (r' & Heq & Hr').
      rewrite Forall_forall in Hseq. specialize (Hseq _ Hr'). simpl in *. lia.
    + apply Forall_app. split.
      * eapply Forall_impl; [done|]. simpl. intros; lia.
      * apply Forall_singleton. simpl. lia.
Qed.

Lemma transaction_keeps_ok {A} (body : M A) : keeps_ok body → keeps_ok (transaction body).
Proof.
  intros Hbody c r c1 Hok. unfold transaction.
  assert (keeps_ok (a ← body; statement (λ c, ((), c));; mret a)) as Hall.
  { apply bind_keeps_ok; [done|]. intros a'.
    apply bind_keeps_ok; [by apply statement_keeps_ok | intros; apply ret_keeps_ok]. }
  destruct ((body ≫= _) c) as [[a|e] c'] eqn:Hrun.
  - intros [= <- <-]. by eapply Hall.
  - intros [= <- <-].
    destruct (Hall _ _ _ Hok Hrun) as (_ & Hseq & _).
    destruct Hok as (Hh & Hi & Hlt). unfold store_ok. simpl.
    split; [split_and!; [done | done |] | by split].
    eapply Forall_impl; [done|]. simpl. intros; lia.
Qed.

Lemma get_pattern_id_keeps_ok node : keeps_ok (_get_pattern_id node).
Proof.
  unfold _get_pattern_id. apply bind_keeps_ok; [apply insert_pattern_keeps_ok|].
  intros [i|]; [apply ret_keeps_ok | by apply statement_keeps_ok].
Qed.

Lemma extract_patterns_keeps_ok commit_id modules :
  keeps_ok (_extract_patterns commit_id modules).
Proof.
  unfold _extract_patterns. apply for_each_keeps_ok. intros n.
  apply bind_keeps_ok; [apply get_pattern_id_keeps_ok|].
  intros i. by apply statement_keeps_ok.
Qed.

Lemma persist_result_keeps_ok repo_info repo_id result :
  keeps_ok (persist_result repo_info repo_id result).
Proof.
  unfold persist_result.
  apply bind_keeps_ok; [by apply statement_keeps_ok|]. intros commit_id.
  apply bind_keeps_ok.
  { apply for_each_keeps_ok. intros cl.
    apply bind_keeps_ok; [by apply statement_keeps_ok|]. intros cluster_id.
    apply for_each_keeps_ok. intros [o s]. by apply statement_keeps_ok. }
  intros _. apply bind_keeps_ok; [by apply statement_keeps_ok|].
  intros _. apply ret_keeps_ok.
Qed.

(** X9.  Whatever the database refuses and whenever, [analyze_repo]
    leaves [patterns] in order, provided the error handler does: one row
    per hash, ids below the serial counter, which has not gone back (a
    rolled-back block does not give its ids back), and every row that was
    there still there, unchanged and in place. *)
Theorem analyze_repo_keeps_patterns (repo_info : RepoInfo) (repo_id : Z)
    (algorithm : string) (c : conn) :
  (∀ ex id, keeps_ok (handle_pg_error ex id)) → store_ok c →
  let c1 := (analyze_repo repo_info repo_id algorithm c).2 in
  store_ok c1 ∧ (patterns_seq c ≤ patterns_seq c1)%Z ∧
  patterns (db c) `prefix_of` patterns (db c1).
Proof.
  intros Hhandler Hok.
  assert (keeps_ok (analyze_repo repo_info repo_id algorithm)) as Hall.
  { unfold analyze_repo. intros c0 r c1 Hok0. unfold try_finally.
    destruct (try_except_PG _ _ c0) as [r' c'] eqn:Hbody. simpl.
    intros [= _ <-].
    change (store_ok c' ∧ (patterns_seq c0 ≤ patterns_seq c')%Z ∧
            patterns (db c0) `prefix_of` patterns (db c')).
    revert Hbody. unfold try_except_PG.
    destruct (_ c0) as [r0 c0'] eqn:Hinner.
    assert (store_ok c0' ∧ (patterns_seq c0 ≤ patterns_seq c0')%Z ∧
            patterns (db c0) `prefix_of` patterns (db c0')) as (Hok' & Hseq' & Hpre').
    { revert Hinner. apply (λ H : keeps_ok _, H c0 r0 c0' Hok0).
      destruct (clone_or_pull repo_info); [|by apply statement_keeps_ok].
      cbv zeta. case_decide; [apply (ret_keeps_ok ())|].
      destruct (run_single_repo _ _) as [e|result].
      - intros c2 r2 c3 Hok2 [= _ <-]. by split_and!.
      - apply bind_keeps_ok; [apply transaction_keeps_ok, persist_result_keeps_ok|].
        intros commit_id.
        apply bind_keeps_ok; [apply transaction_keeps_ok, extract_patterns_keeps_ok|].
        intros _. apply (ret_keeps_ok ()). }
    destruct r0 as [a|[ex|e]].
    - by intros [= _ <-].
    - intros Hh. destruct (Hhandler _ _ _ _ _ Hok' Hh) as (? & ? & ?).
      split_and!; [done | lia | by etrans].
    - by intros [= _ <-]. }
  destruct (analyze_repo repo_info repo_id algorithm c) as [r c1] eqn:Hrun.
  by eapply Hall.
Qed.

(** X8.  With an error handler that returns normally, no database error
    leaves [analyze_repo]: it returns, or raises the [UnsupportedStrategy]
    error for an algorithm that is not registered, then having touched
    nothing.  In every case the connection is closed. *)
Theorem analyze_repo_contains_errors (repo_info : RepoInfo) (repo_id : Z)
    (algorithm : string) (c : conn) :
  (∀ ex id c0, ∃ c1, handle_pg_error ex id c0 = (Ok (), c1)) →
  let '(r, c1) := analyze_repo repo_info repo_id algorithm c in
  closed c1 = true ∧
  match r with
  | Ok _ => True
  | Raise (PGError _) => False
  | Raise (UserInput e) =>
      e = UnsupportedStrategy algorithm ∧ strategies !! algorithm = None ∧
      db c1 = db c ∧ issued c1 = issued c
  end.
Proof.
  intros Hhandler. unfold analyze_repo, try_finally.
  destruct (try_except_PG _ _ c) as [r c'] eqn:Hbody. simpl. split; [done|].
  revert Hbody. unfold try_except_PG.
  destruct (_ c) as [r0 c0] eqn:Hinner.
  destruct r0 as [a|[ex|e]].
  - by intros [= <- _].
  - destruct (Hhandler ex repo_id c0) as [c1 ->]. by intros [= <- _].
  - intros [= <- <-]. revert Hinner.
    destruct (clone_or_pull repo_info).
    + cbv zeta. case_decide; [done|]. unfold run_single_repo.
      destruct (strategies !! algorithm) as [detect|] eqn:Hlookup.
      * intros Hraise. exfalso.
        assert (raises_PG_only
          (commit_id ← transaction (persist_result repo_info repo_id
                                      (detect (modules_in_dir repo_info)));
           transaction (_extract_patterns commit_id (modules_in_dir repo_info));;
           ret ())) as Hpg.
        { apply bind_PG_only; [apply transaction_PG_only, persist_result_PG_only|].
          intros commit_id.
          apply bind_PG_only; [apply transaction_PG_only, extract_patterns_PG_only|].
          intros _. apply (ret_PG_only ()). }
        by destruct (Hpg _ _ _ Hraise).
      * by intros [= <- <-].
    + intros Hraise. by destruct (statement_PG_only _ _ _ _ Hraise).
Qed.

End analyzer.

Arguments Ok {PG_Error A} a.
Arguments Raise {PG_Error A} e.

(** *** A sample run *)

(** Two modules; the first and the last node have the same dump. *)
Definition sample_modules : list (list ModuleNode) :=
  [ [ mkModuleNode "Name" 1 "Name" (mkNodeOrigin "a.py" 1 0);
      mkModuleNode "BinOp(Name,Add,Num)" 5 "BinOp" (mkNodeOrigin "a.py" 1 4) ];
    [ mkModuleNode "Name" 1 "Name" (mkNodeOrigin "b.py" 3 0) ] ].

Definition sample_repo : RepoInfo :=
  mkRepoInfo true "0a1b2c" sample_modules.

Definition sample_result : DetectionResult (similarity := Z) :=
  mkDetectionResult
    [ mkDetectedClone "Name" 1
        [ (mkNodeOrigin "a.py" 1 0, 1%Z); (mkNodeOrigin "b.py" 3 0, 1%Z) ] ].

Definition sample_strategies :
    gmap string (list (list ModuleNode) → DetectionResult (similarity := Z)) :=
  {[ "oxygen" := λ _, sample_result ]}.

(** Repository 7 is queued; one pattern is known already. *)
Definition sample_conn : conn (similarity := Z) :=
  mkConn (mkTables [mkPatternRow 1 "Name" "Name" 1 "Name"] [] [] [] [] {[ 7%Z := "queue" ]})
         2 1 1 0 false.

Definition never_fails (n : nat) : option string := None.

(** The database refuses the statement issued third (numbered from 0). *)
Definition third_fails (n : nat) : option string :=
  if decide (n = 2) then Some "deadlock detected" else None.

(** An error handler in the manner of the analyzer's other status updates. *)
Definition sample_handler (fails : nat → option string) (ex : string) (repo_id : Z) :
    M (similarity := Z) (PG_Error := string) () :=
  update_status fails "err_analysis" repo_id.

Lemma sample_conn_ok : store_ok sample_conn.
Proof.
  unfold store_ok, sample_conn. simpl.
  split_and!; [apply NoDup_singleton | apply NoDup_singleton | by apply Forall_singleton].
Qed.

Lemma never_fails_quiet (c : conn (similarity := Z)) : quiet never_fails c.
Proof. by intros n _. Qed.

Lemma get_pattern_id_idempotent_sample :
  quiet never_fails sample_conn ∧ store_ok sample_conn ∧
  ∃ i c1 c2,
    _get_pattern_id (λ s, s) never_fails (mkModuleNode "Name" 1 "Name" (mkNodeOrigin "a.py" 1 0))
      sample_conn = (Ok (Some i), c1) ∧
    _get_pattern_id (λ s, s) never_fails (mkModuleNode "Name" 1 "Name" (mkNodeOrigin "b.py" 3 0))
      c1 = (Ok (Some i), c2) ∧
    patterns (db c2) = patterns (db sample_conn).
Proof.
  split_and!; [apply never_fails_quiet | apply sample_conn_ok |].
  destruct (get_pattern_id_idempotent (λ s, s) never_fails
              (mkModuleNode "Name" 1 "Name" (mkNodeOrigin "a.py" 1 0))
              (mkModuleNode "Name" 1 "Name" (mkNodeOrigin "b.py" 3 0)) sample_conn
              (never_fails_quiet _) sample_conn_ok eq_refl)
    as (i & c1 & c2 & H1 & H2 & Hold & Hsame & _).
  exists i, c1, c2. split_and!; [done | done |].
  rewrite Hsame. eapply Hold; [apply list_elem_of_here | done].
Defined.

Lemma extract_patterns_sample :
  quiet never_fails sample_conn ∧ store_ok sample_conn ∧
  ∃ c' rows,
    _extract_patterns (λ s, s) never_fails 1 sample_modules sample_conn = (Ok (), c') ∧
    pattern_instances (db c') = pattern_instances (db sample_conn) ++ rows ∧
    length rows = 3.
Proof.
  split_and!; [apply never_fails_quiet | apply sample_conn_ok |].
  destruct (extract_patterns_one_row_per_node (λ s, s) never_fails 1 sample_modules
              sample_conn (never_fails_quiet _) sample_conn_ok)
    as (c' & rows & Hrun & Hinst & _ & Hlen & _).
  by exists c', rows.
Defined.

Lemma unsupported_strategy_sample :
  sample_strategies !! "helium" = None ∧
  clone_or_pull sample_repo = true ∧ modules_in_dir sample_repo ≠ [] ∧
  analyze_repo (λ s, s) never_fails sample_strategies (sample_handler never_fails)
    sample_repo 7 "helium" sample_conn =
  (Raise (UserInput (UnsupportedStrategy "helium")),
   mkConn (db sample_conn) 2 1 1 0 true).
Proof.
  assert (sample_strategies !! "helium" = None) as Hnone by done.
  assert (modules_in_dir sample_repo ≠ []) as Hmods by done.
  split_and!; [done | done | done |].
  exact (proj2 (unsupported_strategy_fails (λ s, s) never_fails sample_strategies
                  (sample_handler never_fails) sample_repo 7 "helium" sample_conn Hnone)
           eq_refl Hmods).
Defined.

Lemma persist_result_atomic_sample :
  clone_or_pull sample_repo = true ∧ modules_in_dir sample_repo ≠ [] ∧
  run_single_repo sample_strategies (modules_in_dir sample_repo) "oxygen" = inr sample_result ∧
  ∃ ex c1,
    transaction third_fails (persist_result third_fails sample_repo 7 sample_result) sample_conn
      = (Raise (PGError ex), c1) ∧
    db c1 = db sample_conn ∧
    analyze_repo (λ s, s) third_fails sample_strategies (sample_handler third_fails)
      sample_repo 7 "oxygen" sample_conn =
    try_finally (sample_handler third_fails ex 7) close c1.
Proof.
  assert (modules_in_dir sample_repo ≠ []) as Hmods by done.
  assert (run_single_repo sample_strategies (modules_in_dir sample_repo) "oxygen"
          = inr sample_result) as Hrun by done.
  split_and!; [done | done | done |].
  pose proof (persist_result_atomic (λ s, s) third_fails sample_strategies
                (sample_handler third_fails) sample_repo 7 "oxygen" sample_result
                sample_conn eq_refl Hmods Hrun) as Hatomic.
  destruct (transaction third_fails (persist_result third_fails sample_repo 7 sample_result)
              sample_conn) as [[commit_id|e] c1] eqn:Hfirst.
  - by vm_compute in Hfirst.
  - destruct Hatomic as (ex & -> & Hdb & Hrest). by exists ex, c1.
Defined.

(** Reading the sample result back, and the sample run under failures. *)

Lemma find_repo_results_after_persist_sample :
  let c1 := (transaction never_fails
               (persist_result never_fails sample_repo 7 sample_result) sample_conn).2 in
  ∃ c2, find_repo_results never_fails (λ id, id) 7 c1 = (Ok (inr sample_result), c2) ∧
        db c2 = db c1.
Proof.
  cbv zeta.
  apply (find_repo_results_after_persist never_fails (λ id, id) sample_repo 7 1
           sample_result sample_conn).
  - apply Forall_nil_2.
  - apply Forall_nil_2.
  - intros r Hr. by apply not_elem_of_nil in Hr.
  - apply Forall_singleton. apply (bool_decide_unpack _). by vm_compute.
  - by vm_compute.
  - apply never_fails_quiet.
Defined.

Lemma find_repo_results_no_commit_sample :
  never_fails (issued sample_conn) = None ∧
  find_repo_results never_fails (λ id, id) 7 sample_conn =
    (Ok (inl "No commit has been analyzed yet for this repository"), tick sample_conn).
Proof.
  split; [done|].
  apply (proj1 (find_repo_results_no_commit never_fails (λ id, id) 7 sample_conn eq_refl)).
  intros r Hr. by apply not_elem_of_nil in Hr.
Defined.

Lemma analyze_repo_success_sample :
  clone_or_pull sample_repo = true ∧ modules_in_dir sample_repo ≠ [] ∧
  run_single_repo sample_strategies (modules_in_dir sample_repo) "oxygen" = inr sample_result ∧
  quiet never_fails sample_conn ∧ store_ok sample_conn ∧
  ∃ c1,
    analyze_repo (λ s, s) never_fails sample_strategies (sample_handler never_fails)
      sample_repo 7 "oxygen" sample_conn = (Ok (), c1) ∧
    closed c1 = true ∧ length (pattern_instances (db c1)) = 3 ∧
    repos (db c1) !! 7%Z = Some "done" ∧
    ∀ n, n ∈ concat (modules_in_dir sample_repo) →
      ∃ r, r ∈ patterns (db c1) ∧ pattern_hash r = type2_pattern n ∧
           instance_pattern (instance_of (λ s, s) (patterns (db c1)) 1 n)
           = Some (pattern_id r).
Proof.
  assert (modules_in_dir sample_repo ≠ []) as Hmods by done.
  assert (run_single_repo sample_strategies (modules_in_dir sample_repo) "oxygen"
          = inr sample_result) as Hrun by done.
  split_and!; [done | done | done | apply never_fails_quiet | apply sample_conn_ok |].
  destruct (analyze_repo_success (λ s, s) never_fails sample_strategies
              (sample_handler never_fails) sample_repo 7 "oxygen" sample_result sample_conn
              eq_refl Hmods Hrun (never_fails_quiet _) sample_conn_ok)
    as (c1 & Hrun1 & Hclosed & _ & _ & _ & _ & Hrepos & Hinst & Hids & _).
  exists c1. split_and!; [done | done | | |].
  - rewrite Hinst. by rewrite length_app, length_fmap.
  - by rewrite Hrepos.
  - intros n Hn. destruct (Hids n Hn) as (r & Hr & Hhash & Hrow).
    exists r. split_and!; [done | done |].
    change 1%Z with (commits_seq sample_conn). by rewrite Hrow.
Defined.

Lemma sample_handler_returns (ex : string) (id : Z) (c0 : conn (similarity := Z)) :
  ∃ c1, sample_handler never_fails ex id c0 = (Ok (), c1).
Proof. by eexists. Qed.

Lemma analyze_repo_contains_errors_sample :
  (∀ ex id c0, ∃ c1, sample_handler never_fails ex id c0 = (Ok (), c1)) ∧
  let '(r, c1) := analyze_repo (λ s, s) third_fails sample_strategies
                    (sample_handler never_fails) sample_repo 7 "oxygen" sample_conn in
  closed c1 = true ∧
  match r with
  | Ok _ => True
  | Raise (PGError _) => False
  | Raise (UserInput e) =>
      e = UnsupportedStrategy "oxygen" ∧ sample_strategies !! "oxygen" = None ∧
      db c1 = db sample_conn ∧ issued c1 = issued sample_conn
  end.
Proof.
  split; [apply sample_handler_returns|].
  apply (analyze_repo_contains_errors (λ s, s) third_fails sample_strategies
           (sample_handler never_fails) sample_repo 7 "oxygen" sample_conn
           sample_handler_returns).
Defined.

Lemma sample_handler_keeps_ok (fails : nat → option string) (ex : string) (id : Z) :
  keeps_ok (sample_handler fails ex id).
Proof. by apply statement_keeps_ok. Qed.

Lemma analyze_repo_keeps_patterns_sample :
  (∀ ex id, keeps_ok (sample_handler third_fails ex id)) ∧
  store_ok sample_conn ∧
  store_ok (analyze_repo (λ s, s) third_fails sample_strategies (sample_handler third_fails)
              sample_repo 7 "oxygen" sample_conn).2.
Proof.
  split_and!; [apply sample_handler_keeps_ok | apply sample_conn_ok |].
  apply (analyze_repo_keeps_patterns (λ s, s) third_fails sample_strategies
           (sample_handler third_fails) sample_repo 7 "oxygen" sample_conn
           (sample_handler_keeps_ok third_fails) sample_conn_ok).
Defined.

Lemma analyze_repo_without_analysis_sample :
  analyze_repo (λ s, s) third_fails sample_strategies (sample_handler third_fails)
    (mkRepoInfo true "0a1b2c" []) 7 "oxygen" sample_conn
  = (Ok (), mkConn (db sample_conn) 2 1 1 0 true) ∧
  repos (db (analyze_repo (λ s, s) never_fails sample_strategies (sample_handler never_fails)
               (mkRepoInfo false "0a1b2c" sample_modules) 7 "oxygen" sample_conn).2) !! 7%Z
  = Some "err_clone".
Proof.
  split.
  - exact (proj1 (analyze_repo_without_analysis (λ s, s) third_fails sample_strategies
                    (sample_handler third_fails) (mkRepoInfo true "0a1b2c" []) 7 "oxygen"
                    sample_conn) eq_refl eq_refl).
  - by rewrite (proj2 (analyze_repo_without_analysis (λ s, s) never_fails sample_strategies
                    (sample_handler never_fails) (mkRepoInfo false "0a1b2c" sample_modules)
                    7 "oxygen" sample_conn) eq_refl eq_refl).
Defined.

End Analyzer.

(** ** [code_duplication/src/app.py] *)

Module App.

(** How [main] ends. *)
Variant outcome : Type :=
  | Returned
  | IndexError.

Definition newline : string := String (Ascii.ascii_of_nat 10) "".

Section app.

(** The methods [get_methods_from_dir] returns, with their [==] (the
    receiver first) and [dump()]. *)
Context {Method : Type}.
Context (method_eq : Method → Method → bool) (dump : Method → string).

(** [check_args], [clone_repos] and [get_methods_from_dir], of modules
    that are not among the sources: what they return. *)
Context {Node : Type}.
Context (check_args : list string → bool).
Context (clone_repos : list string → list string).
Context (get_methods_from_dir : string → list Method * list Node).

(** The inner loop, with what it prints; [None] for an [IndexError]:
      [for i2 in range(i1 + 1, method_count):
           if methods[i2] == m1:
               print("\n\n" + m1.dump())] *)
Definition compare_with_later (methods : list Method) (method_count i1 : nat)
    (m1 : Method) : option (list string) :=
  (λ printed, concat printed) <$>
    mapM (λ i2,
            m2 ← methods !! i2;
            Some (if method_eq m2 m1 then [newline +:+ newline +:+ dump m1] else []))
         (seq (i1 + 1) (method_count - (i1 + 1))).

(** [for i1, m1 in enumerate(methods): ...] *)
Definition report_duplicates (methods : list Method) : option (list string) :=
  let method_count := length methods in
  (λ printed, concat printed) <$>
    mapM (λ '(i1, m1), compare_with_later methods method_count i1 m1)
         (imap (λ i1 m1, (i1, m1)) methods).

(** [main()], given [sys.argv]: what it prints and how it ends. *)
Definition main (argv : list string) : list string * outcome :=
  let flag := check_args argv in
  if negb flag then
    (["    There was an error in your syntax. " +:+ newline +:+
      "    Please verify that the git repos exist and your attempted directory to clone into are correct."],
     Returned)
  else
    let repos := clone_repos argv in
    let printed := ["Parsing methods in repositories..."] in
    match repos !! 0 with
    | None => (printed, IndexError)
    | Some repo =>
        let '(methods, flat_node_list) := get_methods_from_dir repo in
        match report_duplicates methods with
        | None => (printed, IndexError)
        | Some lines => (printed ++ lines, Returned)
        end
    end.

(** The dumps printed for a list of methods, by recursion on the list:
    for each method, in order, its dump once for every later method that
    is equal to it. *)
Fixpoint later_duplicates (methods : list Method) : list string :=
  match methods with
  | [] => []
  | m1 :: rest =>
      (rest ≫= λ m2, if method_eq m2 m1 then [newline +:+ newline +:+ dump m1] else [])
      ++ later_duplicates rest
  end.

(** *** The double loop prints one dump per pair of equal methods *)

Lemma mapM_lookup_seq {B} (g : Method → B) (l : list Method) a n :
  a + n ≤ length l →
  mapM (λ i, m ← l !! i; Some (g m)) (seq a n) = Some (g <$> take n (drop a l)).
Proof.
  revert a. induction n as [|n IH]; intros a Hlen; [done|].
  destruct (lookup_lt_is_Some_2 l a) as [m Hm]; [lia|].
  simpl. rewrite Hm. simpl. rewrite IH by lia. simpl.
  by rewrite (drop_S _ _ _ Hm).
Qed.

Lemma concat_fmap_bind {A B} (f : A → list B) (l : list A) : concat (f <$> l) = l ≫= f.
Proof. induction l as [|x l IH]; [done|]. by rewrite fmap_cons, bind_cons, <-IH. Qed.

Lemma compare_with_later_spec pre m1 rest :
  compare_with_later (pre ++ m1 :: rest) (length (pre ++ m1 :: rest)) (length pre) m1 =
  Some (rest ≫= λ m2, if method_eq m2 m1 then [newline +:+ newline +:+ dump m1] else []).
Proof.
  unfold compare_with_later.
  rewrite (mapM_lookup_seq
             (λ m2, if method_eq m2 m1 then [newline +:+ newline +:+ dump m1] else [])).
  2:{ rewrite length_app. simpl. lia. }
  simpl. f_equal. rewrite <-concat_fmap_bind. do 2 f_equal.
  replace (length pre + 1) with (length (pre ++ [m1])) by (rewrite length_app; simpl; lia).
  rewrite (assoc_L (++) pre [m1] rest : pre ++ m1 :: rest = (pre ++ [m1]) ++ rest).
  rewrite drop_app_length. apply take_ge.
  rewrite !length_app. simpl. lia.
Qed.

Lemma report_duplicates_spec (methods : list Method) :
  report_duplicates methods = Some (later_duplicates methods).
Proof.
  unfold report_duplicates. cbv zeta.
  assert (∀ pre rest,
    (λ printed, concat printed) <$>
      mapM (λ '(i1, m1), compare_with_later (pre ++ rest) (length (pre ++ rest)) i1 m1)
           (imap (λ i1 m1, (length pre + i1, m1)) rest)
    = Some (later_duplicates rest)) as Hgen.
  { intros pre rest. revert pre. induction rest as [|m rest IH]; intros pre; [done|].
    rewrite imap_cons. simpl. rewrite Nat.add_0_r, compare_with_later_spec. simpl.
    specialize (IH (pre ++ [m])).
    rewrite <-(assoc_L (++)) in IH. simpl in IH.
    rewrite (imap_ext _ (λ i1 m1, (length (pre ++ [m]) + i1, m1))).
    2:{ intros i x _. simpl. rewrite length_app. simpl. f_equal. lia. }
    destruct (mapM _ (imap _ rest)) as [printed|]; simpl in *; [|done].
    by injection IH as <-. }
  apply (Hgen [] methods).
Qed.

(** X17.  What [main] does: with bad arguments it prints the syntax
    message and nothing else; otherwise it prints the heading and then, for
    each method of the first repository in order, the method's dump once
    for every later method equal to it.  The double loop never indexes out
    of range; [main] fails, with an [IndexError], only when [clone_repos]
    returns no repository. *)
Theorem main_prints_later_duplicates (argv : list string) :
  main argv =
  if check_args argv then
    match clone_repos argv with
    | [] => (["Parsing methods in repositories..."], IndexError)
    | repo :: _ =>
        ("Parsing methods in repositories..."
           :: later_duplicates (get_methods_from_dir repo).1,
         Returned)
    end
  else
    (["    There was an error in your syntax. " +:+ newline +:+
      "    Please verify that the git repos exist and your attempted directory to clone into are correct."],
     Returned).
Proof.
  unfold main. destruct (check_args argv); [|done]. simpl.
  destruct (clone_repos argv) as [|repo repos]; [done|]. simpl.
  destruct (get_methods_from_dir repo) as [methods flat]. simpl.
  by rewrite report_duplicates_spec.
Qed.

Lemma later_duplicates_cons m1 rest :
  later_duplicates (m1 :: rest) =
  (rest ≫= λ m2, if method_eq m2 m1 then [newline +:+ newline +:+ dump m1] else [])
  ++ later_duplicates rest.
Proof. done. Qed.

Lemma later_duplicates_replicate m n :
  method_eq m m = true →
  later_duplicates (replicate n m) =
  replicate (n * (n - 1) / 2) (newline +:+ newline +:+ dump m).
Proof.
  intros Hrefl. induction n as [|n IH]; [done|].
  change (replicate (S n) m) with (m :: replicate n m).
  rewrite later_duplicates_cons, IH.
  assert (replicate n m ≫= (λ m2, if method_eq m2 m
                                  then [newline +:+ newline +:+ dump m] else [])
          = replicate n (newline +:+ newline +:+ dump m)) as ->.
  { clear IH. induction n as [|n IH]; [done|].
    change (replicate (S n) m) with (m :: replicate n m).
    by rewrite bind_cons, Hrefl, IH. }
  rewrite <-replicate_add. f_equal.
  replace (S n * (S n - 1)) with (n * (n - 1) + n * 2) by nia.
  rewrite Nat.div_add by done. lia.
Qed.

Lemma later_duplicates_distinct (methods : list Method) :
  (∀ i j m m', i < j → methods !! i = Some m → methods !! j = Some m' →
               method_eq m' m = false) →
  later_duplicates methods = [].
Proof.
  induction methods as [|m1 rest IH]; intros Hdistinct; [done|].
  rewrite later_duplicates_cons, IH.
  2:{ intros i j m m' Hij Hi Hj. apply (Hdistinct (S i) (S j)); [lia | done | done]. }
  rewrite app_nil_r.
  assert (∀ l, (∀ m2, m2 ∈ l → method_eq m2 m1 = false) →
    l ≫= (λ m2, if method_eq m2 m1 then [newline +:+ newline +:+ dump m1] else []) = [])
    as Hnone.
  { induction l as [|x l IHl]; intros Hl; [done|].
    rewrite bind_cons, (Hl x) by left. simpl. apply IHl. intros; apply Hl. by right. }
  apply Hnone. intros m2 [j Hj]%list_elem_of_lookup_1.
  by apply (Hdistinct 0 (S j) m1 m2); [lia | |].
Qed.

(** X18.  Two consequences for the double loop.  A method that occurs
    [n] times (and is equal to itself) is printed [n * (n - 1) / 2] times:
    once per pair, not once per group.  And when no method is equal to an
    earlier one, nothing is printed. *)
Theorem report_duplicates_counts (methods : list Method) :
  (∀ m n, method_eq m m = true →
     report_duplicates (replicate n m) =
     Some (replicate (n * (n - 1) / 2) (newline +:+ newline +:+ dump m))) ∧
  ((∀ i j m m', i < j → methods !! i = Some m → methods !! j = Some m' →
                method_eq m' m = false) →
   report_duplicates methods = Some []).
Proof.
  split.
  - intros m n Hrefl. by rewrite report_duplicates_spec, later_duplicates_replicate.
  - intros Hdistinct. by rewrite report_duplicates_spec, later_duplicates_distinct.
Qed.

End app.

(** Three equal methods are printed three times. *)
Lemma report_duplicates_counts_sample :
  report_duplicates Nat.eqb pretty [5; 5; 5]
  = Some (replicate 3 (newline +:+ newline +:+ "5")) ∧
  report_duplicates Nat.eqb pretty [1; 2; 3] = Some [].
Proof.
  split.
  - exact (proj1 (report_duplicates_counts Nat.eqb pretty []) 5 3 eq_refl).
  - apply (proj2 (report_duplicates_counts Nat.eqb pretty [1; 2; 3])).
    intros i j m m' Hij Hi Hj. apply Nat.eqb_neq. intros ->.
    destruct i as [|[|[|i]]], j as [|[|[|j]]]; simplify_eq/=; lia.
Defined.

End App.
